(** * The jump game of [src/components/Game.tsx]

    A shallow embedding of the [Game] component: its React state cells, the
    key handler, the per-frame [gameLoop] closure and the way React re-runs
    the loop effect, followed by the properties of the simulation.

    Numbers.  A JavaScript [number] is modelled as a rational ([Q]): no NaN,
    no infinities.  The first model computes exactly, which is what the code
    does on the values the player and the obstacle columns take; module
    [Rounded] repeats the frame loop with a rounding after every operation,
    for the properties that depend on the sizes and thresholds drawn at
    random; module [Binary64] evaluates [createObstacle]'s sizes in binary64
    itself.  [Math.random()] is an input of the frame (a record of draws),
    [Math.floor] is [Qfloor].

    Rendering.  The canvas calls ([clearRect], [fillRect], [fillText]) do not
    touch the state and are left out. *)

From Stdlib Require Import QArith Qround ZArith Bool List String Lia Lqa Sorting.Sorted.
From Stdlib Require Floats.SpecFloat.
Import ListNotations.

Open Scope Q_scope.

(** ** Data model *)

(** [interface GameObject] *)
Module GameObject.
Record t : Type := mk {
  x : Q;
  y : Q;
  width : Q;
  height : Q;
  velocityY : Q
}.
End GameObject.

(** [interface Obstacle] *)
Module Obstacle.
Record t : Type := mk {
  x : Q;
  width : Q;
  height : Q
}.
End Obstacle.

Definition GRAVITY : Q := 1 # 2.
Definition JUMP_FORCE : Q := -12.
Definition GROUND_HEIGHT : Q := 400.
Definition OBSTACLE_SPEED : Q := 5.
Definition MIN_OBSTACLE_SPACING : Q := 500.
Definition MAX_OBSTACLE_SPACING : Q := 800.
Definition MIN_DISTANCE_BETWEEN_OBSTACLES : Q := 400.

(** [<canvas width={800} height={500}>]: the value of [canvas.width]. *)
Definition CANVAS_WIDTH : Q := 800.

(** The five [useState] cells of the component. *)
Record State : Type := mkState {
  gameOver : bool;
  player : GameObject.t;
  obstacles : list Obstacle.t;
  isJumping : bool;
  score : Q
}.

(** The initial value given to [useState] for the player, which is also the
    one [resetGame] installs. *)
Definition initialPlayer : GameObject.t :=
  GameObject.mk 50 (GROUND_HEIGHT - 40) 40 40 0.

Definition initialState : State :=
  mkState false initialPlayer [] false 0.

(** ** State setters

    A setter called with a function ([setX(prev => ...)]) applies it to the
    latest value of the cell; called with a value it overwrites the cell. *)

Definition setGameOver (b : bool) (s : State) : State :=
  mkState b (player s) (obstacles s) (isJumping s) (score s).

Definition setPlayer (f : GameObject.t -> GameObject.t) (s : State) : State :=
  mkState (gameOver s) (f (player s)) (obstacles s) (isJumping s) (score s).

Definition setObstacles (f : list Obstacle.t -> list Obstacle.t) (s : State) : State :=
  mkState (gameOver s) (player s) (f (obstacles s)) (isJumping s) (score s).

Definition setIsJumping (b : bool) (s : State) : State :=
  mkState (gameOver s) (player s) (obstacles s) b (score s).

Definition setScore (f : Q -> Q) (s : State) : State :=
  mkState (gameOver s) (player s) (obstacles s) (isJumping s) (f (score s)).

(** JavaScript comparisons and truthiness on numbers. *)
Definition Qlt_bool (a b : Q) : bool := negb (Qle_bool b a).
Definition truthy (a : Q) : bool := negb (Qeq_bool a 0).

(** ** Key handling *)

Definition resetGame (s : State) : State :=
  setIsJumping false
    (setScore (fun _ => 0)
      (setObstacles (fun _ => [])
        (setPlayer (fun _ => GameObject.mk 50 (GROUND_HEIGHT - 40) 40 40 0)
          (setGameOver false s)))).

(** [{ ...prev, velocityY: JUMP_FORCE }] *)
Definition withVelocityY (v : Q) (p : GameObject.t) : GameObject.t :=
  GameObject.mk (GameObject.x p) (GameObject.y p) (GameObject.width p)
                (GameObject.height p) v.

(** The guard of the first [if] of [handleKeyDown]. *)
Definition restartGuard (code : string) (s : State) : bool :=
  gameOver s && String.eqb code "Space".

(** The guard of the second [if] of [handleKeyDown]. *)
Definition jumpGuard (code : string) (s : State) : bool :=
  (String.eqb code "Space" || String.eqb code "ArrowUp")
  && negb (isJumping s) && negb (gameOver s).

(** The body of the second [if]. *)
Definition jump (s : State) : State :=
  setIsJumping true (setPlayer (withVelocityY JUMP_FORCE) s).

(** The second [if] statement of [handleKeyDown] on its own: the Jump
    intent. *)
Definition jumpIntent (code : string) (s : State) : State :=
  if jumpGuard code s then jump s else s.

Definition handleKeyDown (code : string) (s : State) : State :=
  if restartGuard code s then resetGame s
  else jumpIntent code s.

(** ** The frame loop *)

(** The three [Math.random()] calls a frame can make: one for the spawn
    threshold, two inside [createObstacle]. *)
Record Draws : Type := mkDraws {
  rndThreshold : Q;
  rndWidth : Q;
  rndHeight : Q
}.

(** A draw of [Math.random()] lies in [0, 1). *)
Definition validDraw (r : Q) : Prop := 0 <= r /\ r < 1.

(** One run of the second [useEffect]: the values of [player] and
    [obstacles] captured from the render that created it, and its two [let]
    variables. *)
Record Loop : Type := mkLoop {
  capturedPlayer : GameObject.t;
  capturedObstacles : list Obstacle.t;
  lastTimestamp : Q;
  obstacleSpawnTimer : Q
}.

Definition createObstacle (rnd : Draws) : Obstacle.t :=
  let width := 30 + rndWidth rnd * 20 in
  let height := 50 + rndHeight rnd * 50 in
  Obstacle.mk CANVAS_WIDTH width height.

(** [canSpawnObstacle] reads the [obstacles] of its closure, passed here as
    an argument; [last rest o] is [obstacles[obstacles.length - 1]]. *)
Definition canSpawnObstacle (obstacles : list Obstacle.t) : bool :=
  match obstacles with
  | [] => true
  | o :: rest =>
      let lastObstacle := last rest o in
      Qlt_bool (Obstacle.x lastObstacle) (CANVAS_WIDTH - MIN_DISTANCE_BETWEEN_OBSTACLES)
  end.

Definition checkCollision (player : GameObject.t) (obstacle : Obstacle.t) : bool :=
  Qlt_bool (GameObject.x player) (Obstacle.x obstacle + Obstacle.width obstacle)
  && Qlt_bool (Obstacle.x obstacle) (GameObject.x player + GameObject.width player)
  && Qlt_bool (GROUND_HEIGHT - Obstacle.height obstacle)
              (GameObject.y player + GameObject.height player).

(** [MIN_OBSTACLE_SPACING + Math.random() * (MAX_OBSTACLE_SPACING - MIN_OBSTACLE_SPACING)] *)
Definition spawnThreshold (rnd : Draws) : Q :=
  MIN_OBSTACLE_SPACING + rndThreshold rnd * (MAX_OBSTACLE_SPACING - MIN_OBSTACLE_SPACING).

(** [{ ...obstacle, x: obstacle.x - OBSTACLE_SPEED }] *)
Definition advance (obstacle : Obstacle.t) : Obstacle.t :=
  Obstacle.mk (Obstacle.x obstacle - OBSTACLE_SPEED)
              (Obstacle.width obstacle) (Obstacle.height obstacle).

(** [obstacle.x + obstacle.width > 0] *)
Definition onScreen (obstacle : Obstacle.t) : bool :=
  Qlt_bool 0 (Obstacle.x obstacle + Obstacle.width obstacle).

(** The updater of the "Update obstacles" [setObstacles]. *)
Definition updateObstacles (prev : list Obstacle.t) : list Obstacle.t :=
  filter onScreen (map advance prev).

(** The "Update player position" [setPlayer]: its updater calls
    [setIsJumping(false)] in the ground branch. *)
Definition updatePlayer (s : State) : State :=
  let prev := player s in
  let newY := GameObject.y prev + GameObject.velocityY prev in
  let newVelocityY := GameObject.velocityY prev + GRAVITY in
  if Qle_bool (GROUND_HEIGHT - GameObject.height prev) newY then
    setPlayer (fun prev =>
                 GameObject.mk (GameObject.x prev) (GROUND_HEIGHT - GameObject.height prev)
                               (GameObject.width prev) (GameObject.height prev) 0)
              (setIsJumping false s)
  else
    setPlayer (fun prev =>
                 GameObject.mk (GameObject.x prev) newY
                               (GameObject.width prev) (GameObject.height prev) newVelocityY)
              s.

(** The "Check collisions" [forEach]: it reads the captured [player] and
    [obstacles], not the cells being updated. *)
Definition checkCollisions (l : Loop) (s : State) : State :=
  fold_left
    (fun acc obstacle =>
       if checkCollision (capturedPlayer l) obstacle then setGameOver true acc else acc)
    (capturedObstacles l) s.

(** The spawn test of a frame, after the timer has accumulated. *)
Definition spawnFires (l : Loop) (rnd : Draws) (timestamp : Q) : bool :=
  let deltaTime := timestamp - lastTimestamp l in
  Qlt_bool (spawnThreshold rnd) (obstacleSpawnTimer l + deltaTime)
  && canSpawnObstacle (capturedObstacles l).

(** The "Spawn new obstacles" block: the pending obstacle list and the new
    value of [obstacleSpawnTimer]. *)
Definition spawn (l : Loop) (rnd : Draws) (timestamp : Q) (s : State) : State * Q :=
  let deltaTime := timestamp - lastTimestamp l in
  let timer := obstacleSpawnTimer l + deltaTime in
  if Qlt_bool (spawnThreshold rnd) timer then
    if canSpawnObstacle (capturedObstacles l) then
      (setObstacles (fun prev => prev ++ [createObstacle rnd]) s, 0)
    else (s, timer)
  else (s, timer).

(** The "Increment score" block. *)
Definition incrementScore (deltaTime : Q) (s : State) : State :=
  if truthy deltaTime then
    setScore (fun prev => prev + inject_Z (Qfloor (deltaTime / 100))) s
  else s.

(** [gameLoop(timestamp)], run in the closure [l] against the pending state
    [s]: the closure with its [let] variables updated, and the state once
    every queued update has been applied. *)
Definition gameLoop (l : Loop) (rnd : Draws) (timestamp : Q) (s : State) : Loop * State :=
  let deltaTime := timestamp - lastTimestamp l in
  let '(s1, timer) := spawn l rnd timestamp s in
  let s2 := setObstacles updateObstacles s1 in
  let s3 := updatePlayer s2 in
  let s4 := checkCollisions l s3 in
  let s5 := incrementScore deltaTime s4 in
  (mkLoop (capturedPlayer l) (capturedObstacles l) timestamp timer, s5).

(** ** React scheduling

    The loop effect lists [player, obstacles, score, gameOver] as its
    dependencies.  Every [gameLoop] call installs a new player object and a
    new obstacle array, and every key press that does anything installs a new
    player object, so the render that follows tears the effect down (the
    pending animation frame is cancelled) and runs it again: the next frame
    runs in a fresh closure, which captures the rendered state and starts
    with [lastTimestamp = 0] and [obstacleSpawnTimer = 0].  While [gameOver]
    holds the effect returns before it requests a frame. *)

Record World : Type := mkWorld {
  st : State;
  loop : option Loop
}.

(** The body of the second [useEffect], run after a render of [s]. *)
Definition mountLoop (s : State) : option Loop :=
  if gameOver s then None
  else Some (mkLoop (player s) (obstacles s) 0 0).

Definition render (s : State) : World := mkWorld s (mountLoop s).

Inductive Event : Type :=
| AnimationFrame (timestamp : Q) (rnd : Draws)
| KeyDown (code : string).

(** One event of the page.  A frame runs [gameLoop] in the current closure,
    if there is one, and the state it leaves is rendered.  The key handler is
    re-registered whenever [isJumping] or [gameOver] changes, so it reads the
    current cells; a key press that passes neither guard calls no setter and
    causes no render. *)
Definition step (w : World) (e : Event) : World :=
  match e with
  | AnimationFrame timestamp rnd =>
      match loop w with
      | None => w
      | Some l => render (snd (gameLoop l rnd timestamp (st w)))
      end
  | KeyDown code =>
      if restartGuard code (st w) || jumpGuard code (st w)
      then render (handleKeyDown code (st w))
      else w
  end.

Definition run (w : World) (es : list Event) : World := fold_left step es w.

Definition initialWorld : World := render initialState.

Inductive reachable : World -> Prop :=
| reach_init : reachable initialWorld
| reach_step : forall w e, reachable w -> reachable (step w e).

(** The closure of the world is the one the last render created. *)
Definition rendered (w : World) : Prop := loop w = mountLoop (st w).

(** ** Predicates used in the statements *)

(** [b] was spawned after [a] with the required gap. *)
Definition spaced (a b : Obstacle.t) : Prop :=
  MIN_DISTANCE_BETWEEN_OBSTACLES < Obstacle.x b - Obstacle.x a.

Definition visible (o : Obstacle.t) : Prop :=
  0 < Obstacle.x o + Obstacle.width o.

Definition isInteger (q : Q) : Prop := exists z : Z, q = inject_Z z.

(** The spawn timer once [deltaTime] has been added, before the spawn test. *)
Definition accumulatedTimer (l : Loop) (timestamp : Q) : Q :=
  obstacleSpawnTimer l + (timestamp - lastTimestamp l).

(** The distance constraint in the words of the specification. *)
Definition distanceConstraint (obstacles : list Obstacle.t) : Prop :=
  obstacles = [] \/
  exists front lastObstacle,
    obstacles = front ++ [lastObstacle] /\
    Obstacle.x lastObstacle < CANVAS_WIDTH - MIN_DISTANCE_BETWEEN_OBSTACLES.

(** What every reachable world satisfies. *)
Definition invariant (w : World) : Prop :=
  rendered w /\
  StronglySorted spaced (obstacles (st w)) /\
  Forall visible (obstacles (st w)) /\
  isInteger (score (st w)).


(** ** Predicates for runs with well-formed inputs *)

(** What the browser delivers: frame timestamps are not negative and every
    [Math.random()] draw lies in [0, 1). *)
Definition validEvent (e : Event) : Prop :=
  match e with
  | AnimationFrame timestamp rnd =>
      0 <= timestamp /\
      validDraw (rndThreshold rnd) /\ validDraw (rndWidth rnd) /\
      validDraw (rndHeight rnd)
  | KeyDown _ => True
  end.

(** The size [createObstacle] gives an obstacle, and where an obstacle of the
    list can stand: it was spawned at [canvas.width] and advanced at least
    once. *)
Definition wellPlaced (o : Obstacle.t) : Prop :=
  (30 <= Obstacle.width o /\ Obstacle.width o < 50) /\
  (50 <= Obstacle.height o /\ Obstacle.height o < 100) /\
  Obstacle.x o <= CANVAS_WIDTH - OBSTACLE_SPEED.

Definition Qnat (k : nat) : Q := inject_Z (Z.of_nat k).

(** Height and speed of the player [k] frames into a jump that started at
    [y0]: [k] additions of the velocity, which itself grew by [GRAVITY] each
    frame. *)
Definition jumpY (y0 : Q) (k : nat) : Q :=
  y0 + JUMP_FORCE * Qnat k + GRAVITY * (Qnat k * (Qnat k - 1) / 2).

Definition jumpVelocity (k : nat) : Q := JUMP_FORCE + GRAVITY * Qnat k.

(** The player cell and the [isJumping] flag in the worlds of [step], where
    a frame and the render that follows it are one event: the player keeps
    its column and size; with the flag down it stands at rest on the ground;
    with the flag up its height is determined by its velocity. *)
Definition playerInvariant (p : GameObject.t) (jumping : bool) : Prop :=
  GameObject.x p = 50 /\ GameObject.width p = 40 /\ GameObject.height p = 40 /\
  (jumping = false -> p = initialPlayer) /\
  (jumping = true ->
     GameObject.y p
       == GROUND_HEIGHT - 40
          + (GameObject.velocityY p - JUMP_FORCE)
            * (GameObject.velocityY p + JUMP_FORCE - GRAVITY) /\
     JUMP_FORCE <= GameObject.velocityY p /\
     GameObject.velocityY p <= GRAVITY - JUMP_FORCE).

(** A run of [gameLoop] calls, each in whatever closure it was requested
    from, with no key press in between. *)
Definition applyFrames (calls : list (Loop * Draws * Q)) (s : State) : State :=
  fold_left
    (fun acc call => snd (gameLoop (fst (fst call)) (snd (fst call)) (snd call) acc))
    calls s.

(** ** The frame loop with rounded arithmetic

    The same program, with every arithmetic operation followed by a rounding
    [fl] of its exact result, which is how binary64 computes a finite sum,
    difference, product or quotient.  Nothing is assumed of [fl] here; the
    properties below ask that it be monotone and exact on the integers up to
    [2 ^ 53], which round-to-nearest is.  At the identity rounding this is
    the exact model above. *)
Module Rounded.
Section Rounding.
Variable fl : Q -> Q.

Definition createObstacle (rnd : Draws) : Obstacle.t :=
  let width := fl (30 + fl (rndWidth rnd * 20)) in
  let height := fl (50 + fl (rndHeight rnd * 50)) in
  Obstacle.mk CANVAS_WIDTH width height.

Definition canSpawnObstacle (obstacles : list Obstacle.t) : bool :=
  match obstacles with
  | [] => true
  | o :: rest =>
      let lastObstacle := last rest o in
      Qlt_bool (Obstacle.x lastObstacle)
               (fl (CANVAS_WIDTH - MIN_DISTANCE_BETWEEN_OBSTACLES))
  end.

Definition checkCollision (player : GameObject.t) (obstacle : Obstacle.t) : bool :=
  Qlt_bool (GameObject.x player) (fl (Obstacle.x obstacle + Obstacle.width obstacle))
  && Qlt_bool (Obstacle.x obstacle) (fl (GameObject.x player + GameObject.width player))
  && Qlt_bool (fl (GROUND_HEIGHT - Obstacle.height obstacle))
              (fl (GameObject.y player + GameObject.height player)).

Definition spawnThreshold (rnd : Draws) : Q :=
  fl (MIN_OBSTACLE_SPACING
      + fl (rndThreshold rnd * fl (MAX_OBSTACLE_SPACING - MIN_OBSTACLE_SPACING))).

Definition advance (obstacle : Obstacle.t) : Obstacle.t :=
  Obstacle.mk (fl (Obstacle.x obstacle - OBSTACLE_SPEED))
              (Obstacle.width obstacle) (Obstacle.height obstacle).

Definition onScreen (obstacle : Obstacle.t) : bool :=
  Qlt_bool 0 (fl (Obstacle.x obstacle + Obstacle.width obstacle)).

Definition updateObstacles (prev : list Obstacle.t) : list Obstacle.t :=
  filter onScreen (map advance prev).

Definition updatePlayer (s : State) : State :=
  let prev := player s in
  let newY := fl (GameObject.y prev + GameObject.velocityY prev) in
  let newVelocityY := fl (GameObject.velocityY prev + GRAVITY) in
  if Qle_bool (fl (GROUND_HEIGHT - GameObject.height prev)) newY then
    setPlayer (fun prev =>
                 GameObject.mk (GameObject.x prev)
                               (fl (GROUND_HEIGHT - GameObject.height prev))
                               (GameObject.width prev) (GameObject.height prev) 0)
              (setIsJumping false s)
  else
    setPlayer (fun prev =>
                 GameObject.mk (GameObject.x prev) newY
                               (GameObject.width prev) (GameObject.height prev) newVelocityY)
              s.

Definition checkCollisions (l : Loop) (s : State) : State :=
  fold_left
    (fun acc obstacle =>
       if checkCollision (capturedPlayer l) obstacle then setGameOver true acc else acc)
    (capturedObstacles l) s.

(** [obstacleSpawnTimer += deltaTime], with [deltaTime = timestamp - lastTimestamp]. *)
Definition accumulatedTimer (l : Loop) (timestamp : Q) : Q :=
  fl (obstacleSpawnTimer l + fl (timestamp - lastTimestamp l)).

Definition spawnFires (l : Loop) (rnd : Draws) (timestamp : Q) : bool :=
  let deltaTime := fl (timestamp - lastTimestamp l) in
  Qlt_bool (spawnThreshold rnd) (fl (obstacleSpawnTimer l + deltaTime))
  && canSpawnObstacle (capturedObstacles l).

Definition spawn (l : Loop) (rnd : Draws) (timestamp : Q) (s : State) : State * Q :=
  let deltaTime := fl (timestamp - lastTimestamp l) in
  let timer := fl (obstacleSpawnTimer l + deltaTime) in
  if Qlt_bool (spawnThreshold rnd) timer then
    if canSpawnObstacle (capturedObstacles l) then
      (setObstacles (fun prev => prev ++ [createObstacle rnd]) s, 0)
    else (s, timer)
  else (s, timer).

Definition incrementScore (deltaTime : Q) (s : State) : State :=
  if truthy deltaTime then
    setScore (fun prev => fl (prev + inject_Z (Qfloor (fl (deltaTime / 100))))) s
  else s.

Definition gameLoop (l : Loop) (rnd : Draws) (timestamp : Q) (s : State) : Loop * State :=
  let deltaTime := fl (timestamp - lastTimestamp l) in
  let '(s1, timer) := spawn l rnd timestamp s in
  let s2 := setObstacles updateObstacles s1 in
  let s3 := updatePlayer s2 in
  let s4 := checkCollisions l s3 in
  let s5 := incrementScore deltaTime s4 in
  (mkLoop (capturedPlayer l) (capturedObstacles l) timestamp timer, s5).

(** The key handler, the mounting of the loop effect and the render do no
    arithmetic ([GROUND_HEIGHT - 40] is exactly 360 in binary64 too). *)
Definition step (w : World) (e : Event) : World :=
  match e with
  | AnimationFrame timestamp rnd =>
      match loop w with
      | None => w
      | Some l => render (snd (gameLoop l rnd timestamp (st w)))
      end
  | KeyDown code =>
      if restartGuard code (st w) || jumpGuard code (st w)
      then render (handleKeyDown code (st w))
      else w
  end.

Definition run (w : World) (es : list Event) : World := fold_left step es w.

End Rounding.
End Rounded.

(** ** [createObstacle] in binary64

    The sizes [createObstacle] computes, in the Standard Library's
    specification of IEEE 754 binary64 (53 bits of precision, round to
    nearest even), the arithmetic of a JavaScript [number].
    [ofDyadic m e] is the double nearest to [m * 2 ^ e]. *)
Module Binary64.

Definition float : Type := SpecFloat.spec_float.

Definition ofDyadic (m e : Z) : float := SpecFloat.binary_normalize 53 1024 m e false.

Definition ofZ (z : Z) : float := ofDyadic z 0.

Definition add (a b : float) : float := SpecFloat.SFadd 53 1024 a b.

Definition mul (a b : float) : float := SpecFloat.SFmul 53 1024 a b.

Definition ltb (a b : float) : bool := SpecFloat.SFltb a b.


Definition createObstacleWidth (random : float) : float :=
  add (ofZ 30) (mul random (ofZ 20)).

Definition createObstacleHeight (random : float) : float :=
  add (ofZ 50) (mul random (ofZ 50)).

End Binary64.

(** The column and size of the player, which never sinks below the ground
    line, whatever its velocity and the [isJumping] flag. *)
Definition playerAboveGround (p : GameObject.t) : Prop :=
  GameObject.x p = 50 /\ GameObject.width p = 40 /\ GameObject.height p = 40 /\
  GameObject.y p + GameObject.height p <= GROUND_HEIGHT.

(** The sizes a rounded [createObstacle] can give and the columns an obstacle
    of the list can stand in. *)
Definition inBounds (o : Obstacle.t) : Prop :=
  (30 <= Obstacle.width o /\ Obstacle.width o <= 50) /\
  (50 <= Obstacle.height o /\ Obstacle.height o <= 100) /\
  -50 < Obstacle.x o /\
  Obstacle.x o <= CANVAS_WIDTH - OBSTACLE_SPEED.

(** Splits a [playerInvariant] goal into its five parts. *)
Ltac split_playerInvariant := split; [|split; [|split; [|split]]].

(** * Basic facts *)

Lemma Qlt_bool_iff (a b : Q) : Qlt_bool a b = true <-> a < b.
Proof.
  unfold Qlt_bool. rewrite negb_true_iff. split.
  - intro H. apply Qnot_le_lt. intro Hle. apply Qle_bool_iff in Hle. congruence.
  - intro H. destruct (Qle_bool b a) eqn:E; [|reflexivity].
    apply Qle_bool_iff in E. exfalso. exact (Qlt_not_le _ _ H E).
Qed.

Lemma Qlt_bool_false_iff (a b : Q) : Qlt_bool a b = false <-> b <= a.
Proof.
  unfold Qlt_bool. rewrite negb_false_iff. apply Qle_bool_iff.
Qed.

Lemma truthy_true_iff (a : Q) : truthy a = true <-> ~ a == 0.
Proof.
  unfold truthy. rewrite negb_true_iff. split.
  - intros H E. apply Qeq_bool_iff in E. congruence.
  - intro H. destruct (Qeq_bool a 0) eqn:E; [|reflexivity].
    apply Qeq_bool_iff in E. contradiction.
Qed.

Lemma truthy_false_iff (a : Q) : truthy a = false <-> a == 0.
Proof.
  unfold truthy. rewrite negb_false_iff. apply Qeq_bool_iff.
Qed.

(** ** What each block of [gameLoop] leaves alone *)

Lemma spawn_fires (l : Loop) (rnd : Draws) (t : Q) (s : State) :
  spawn l rnd t s =
    if spawnFires l rnd t
    then (setObstacles (fun prev => prev ++ [createObstacle rnd]) s, 0)
    else (s, accumulatedTimer l t).
Proof.
  unfold spawn, spawnFires, accumulatedTimer.
  destruct (Qlt_bool _ _); simpl; [|reflexivity].
  destruct (canSpawnObstacle _); reflexivity.
Qed.

Lemma checkCollisions_frame (l : Loop) (s : State) :
  player (checkCollisions l s) = player s /\
  obstacles (checkCollisions l s) = obstacles s /\
  isJumping (checkCollisions l s) = isJumping s /\
  score (checkCollisions l s) = score s.
Proof.
  unfold checkCollisions. generalize (capturedObstacles l) as os.
  intro os. revert s. induction os as [|o os IH]; intro s; simpl.
  - repeat split.
  - destruct (checkCollision _ o); [|apply IH].
    destruct (IH (setGameOver true s)) as (Hp & Ho & Hj & Hs).
    rewrite Hp, Ho, Hj, Hs. repeat split.
Qed.

Lemma checkCollisions_gameOver (l : Loop) (s : State) :
  gameOver (checkCollisions l s) =
    gameOver s || existsb (checkCollision (capturedPlayer l)) (capturedObstacles l).
Proof.
  unfold checkCollisions. generalize (capturedObstacles l) as os.
  intro os. revert s. induction os as [|o os IH]; intro s; simpl.
  - now rewrite orb_false_r.
  - destruct (checkCollision _ o); rewrite IH; simpl.
    + now rewrite orb_true_r.
    + reflexivity.
Qed.

Lemma updatePlayer_frame (s : State) :
  gameOver (updatePlayer s) = gameOver s /\
  obstacles (updatePlayer s) = obstacles s /\
  score (updatePlayer s) = score s.
Proof.
  unfold updatePlayer. destruct (Qle_bool _ _); repeat split.
Qed.

Lemma incrementScore_frame (deltaTime : Q) (s : State) :
  gameOver (incrementScore deltaTime s) = gameOver s /\
  player (incrementScore deltaTime s) = player s /\
  obstacles (incrementScore deltaTime s) = obstacles s /\
  isJumping (incrementScore deltaTime s) = isJumping s.
Proof.
  unfold incrementScore. destruct (truthy _); repeat split.
Qed.

Lemma spawn_frame (l : Loop) (rnd : Draws) (t : Q) (s : State) :
  gameOver (fst (spawn l rnd t s)) = gameOver s /\
  player (fst (spawn l rnd t s)) = player s /\
  isJumping (fst (spawn l rnd t s)) = isJumping s /\
  score (fst (spawn l rnd t s)) = score s.
Proof.
  rewrite spawn_fires. destruct (spawnFires _ _ _); repeat split.
Qed.

(** ** The cells after one [gameLoop] call *)

Lemma gameLoop_unfold (l : Loop) (rnd : Draws) (t : Q) (s : State) :
  gameLoop l rnd t s =
    (mkLoop (capturedPlayer l) (capturedObstacles l) t (snd (spawn l rnd t s)),
     incrementScore (t - lastTimestamp l)
       (checkCollisions l
          (updatePlayer (setObstacles updateObstacles (fst (spawn l rnd t s)))))).
Proof.
  unfold gameLoop. destruct (spawn l rnd t s); reflexivity.
Qed.

Lemma gameLoop_obstacles (l : Loop) (rnd : Draws) (t : Q) (s : State) :
  obstacles (snd (gameLoop l rnd t s)) =
    updateObstacles (obstacles (fst (spawn l rnd t s))).
Proof.
  rewrite gameLoop_unfold. simpl.
  destruct (incrementScore_frame (t - lastTimestamp l)
    (checkCollisions l (updatePlayer (setObstacles updateObstacles (fst (spawn l rnd t s))))))
    as (_ & _ & -> & _).
  destruct (checkCollisions_frame l
    (updatePlayer (setObstacles updateObstacles (fst (spawn l rnd t s)))))
    as (_ & -> & _).
  destruct (updatePlayer_frame (setObstacles updateObstacles (fst (spawn l rnd t s))))
    as (_ & -> & _).
  reflexivity.
Qed.

Lemma gameLoop_gameOver (l : Loop) (rnd : Draws) (t : Q) (s : State) :
  gameOver (snd (gameLoop l rnd t s)) =
    gameOver s || existsb (checkCollision (capturedPlayer l)) (capturedObstacles l).
Proof.
  rewrite gameLoop_unfold. simpl.
  destruct (incrementScore_frame (t - lastTimestamp l)
    (checkCollisions l (updatePlayer (setObstacles updateObstacles (fst (spawn l rnd t s))))))
    as (-> & _).
  rewrite checkCollisions_gameOver.
  destruct (updatePlayer_frame (setObstacles updateObstacles (fst (spawn l rnd t s))))
    as (-> & _).
  simpl. destruct (spawn_frame l rnd t s) as (-> & _). reflexivity.
Qed.

Lemma gameLoop_score (l : Loop) (rnd : Draws) (t : Q) (s : State) :
  score (snd (gameLoop l rnd t s)) =
    score (incrementScore (t - lastTimestamp l) s).
Proof.
  rewrite gameLoop_unfold. simpl. unfold incrementScore.
  assert (E : score (checkCollisions l
                (updatePlayer (setObstacles updateObstacles (fst (spawn l rnd t s)))))
              = score s).
  { destruct (checkCollisions_frame l
      (updatePlayer (setObstacles updateObstacles (fst (spawn l rnd t s)))))
      as (_ & _ & _ & ->).
    destruct (updatePlayer_frame (setObstacles updateObstacles (fst (spawn l rnd t s))))
      as (_ & _ & ->).
    simpl. now destruct (spawn_frame l rnd t s) as (_ & _ & _ & ->). }
  destruct (truthy _); simpl; rewrite E; reflexivity.
Qed.

Lemma updatePlayer_cong (s s' : State) :
  player s = player s' -> isJumping s = isJumping s' ->
  player (updatePlayer s) = player (updatePlayer s') /\
  isJumping (updatePlayer s) = isJumping (updatePlayer s').
Proof.
  intros Hp Hj. unfold updatePlayer. rewrite Hp.
  destruct (Qle_bool _ _); simpl; rewrite ?Hp, ?Hj; split; reflexivity.
Qed.

Lemma gameLoop_player (l : Loop) (rnd : Draws) (t : Q) (s : State) :
  player (snd (gameLoop l rnd t s)) = player (updatePlayer s) /\
  isJumping (snd (gameLoop l rnd t s)) = isJumping (updatePlayer s).
Proof.
  rewrite gameLoop_unfold. simpl.
  destruct (incrementScore_frame (t - lastTimestamp l)
    (checkCollisions l (updatePlayer (setObstacles updateObstacles (fst (spawn l rnd t s))))))
    as (_ & -> & _ & ->).
  destruct (checkCollisions_frame l
    (updatePlayer (setObstacles updateObstacles (fst (spawn l rnd t s)))))
    as (-> & _ & -> & _).
  destruct (spawn_frame l rnd t s) as (_ & Hp & Hj & _).
  apply updatePlayer_cong; simpl; assumption.
Qed.

Lemma gameLoop_timer (l : Loop) (rnd : Draws) (t : Q) (s : State) :
  obstacleSpawnTimer (fst (gameLoop l rnd t s)) =
    (if spawnFires l rnd t then 0 else accumulatedTimer l t) /\
  lastTimestamp (fst (gameLoop l rnd t s)) = t.
Proof.
  rewrite gameLoop_unfold. simpl. rewrite spawn_fires.
  destruct (spawnFires _ _ _); split; reflexivity.
Qed.

(** * Player physics *)

(** C1 (per-frame ground clamp).  For every closure, draw, timestamp and
    state (so in particular for a player of height 40): when
    [newY = y + velocityY] reaches [GROUND_HEIGHT - height], the player after
    the frame stands at exactly [GROUND_HEIGHT - height] with [velocityY = 0]
    and [isJumping] is cleared; otherwise the player is at [newY] with
    [velocityY + GRAVITY].  [x], [width] and [height] never change. *)
Theorem ground_clamp (l : Loop) (rnd : Draws) (t : Q) (s : State) :
  let prev := player s in
  let newY := GameObject.y prev + GameObject.velocityY prev in
  let s' := snd (gameLoop l rnd t s) in
  (GROUND_HEIGHT - GameObject.height prev <= newY ->
     player s' = GameObject.mk (GameObject.x prev)
                               (GROUND_HEIGHT - GameObject.height prev)
                               (GameObject.width prev) (GameObject.height prev) 0 /\
     isJumping s' = false) /\
  (~ GROUND_HEIGHT - GameObject.height prev <= newY ->
     player s' = GameObject.mk (GameObject.x prev) newY
                               (GameObject.width prev) (GameObject.height prev)
                               (GameObject.velocityY prev + GRAVITY) /\
     isJumping s' = isJumping s).
Proof.
  intros prev newY s'. subst s'.
  destruct (gameLoop_player l rnd t s) as [-> ->].
  unfold updatePlayer. fold prev. fold newY.
  destruct (Qle_bool (GROUND_HEIGHT - GameObject.height prev) newY) eqn:E.
  - split; [intros _; split; reflexivity|].
    intro H. exfalso. apply H. now apply Qle_bool_iff.
  - split; [|intros _; split; reflexivity].
    intro H. apply Qle_bool_iff in H. congruence.
Qed.

(** A grounded player stays at 360; a player that has just jumped rises to
    348 with velocity -11.5. *)
Lemma ground_clamp_witness :
  let l := mkLoop initialPlayer [] 0 0 in
  let rnd := mkDraws 0 0 0 in
  (player (snd (gameLoop l rnd 16 initialState))
     = GameObject.mk 50 (GROUND_HEIGHT - 40) 40 40 0 /\
   isJumping (snd (gameLoop l rnd 16 initialState)) = false) /\
  (player (snd (gameLoop l rnd 16 (jump initialState)))
     = GameObject.mk 50 (GROUND_HEIGHT - 40 + JUMP_FORCE) 40 40 (JUMP_FORCE + GRAVITY) /\
   isJumping (snd (gameLoop l rnd 16 (jump initialState))) = true).
Proof.
  intros l rnd. split.
  - apply (ground_clamp l rnd 16 initialState). vm_compute. discriminate.
  - apply (ground_clamp l rnd 16 (jump initialState)). vm_compute.
    intro H. apply H. reflexivity.
Defined.

(** * Key handling *)

Lemma resetGame_initial (s : State) : resetGame s = initialState.
Proof. reflexivity. Qed.

Lemma jumpGuard_true_iff (code : string) (s : State) :
  jumpGuard code s = true <->
  (code = "Space"%string \/ code = "ArrowUp"%string) /\
  isJumping s = false /\ gameOver s = false.
Proof.
  unfold jumpGuard.
  rewrite !andb_true_iff, orb_true_iff, !negb_true_iff, !String.eqb_eq.
  tauto.
Qed.

(** C3 (restart resets exactly).  From any world whose session is over,
    whatever its score and obstacles, a [Space] key press yields score 0, no
    obstacles, the player at (50, 360) of size 40 x 40 with [velocityY = 0],
    [isJumping] and [gameOver] false, and a loop closure whose spawn timer
    and last timestamp are 0. *)
Theorem restart_resets (w : World) :
  gameOver (st w) = true ->
  let w' := step w (KeyDown "Space") in
  score (st w') = 0 /\
  obstacles (st w') = [] /\
  player (st w') = GameObject.mk 50 360 40 40 0 /\
  isJumping (st w') = false /\
  gameOver (st w') = false /\
  loop w' = Some (mkLoop (GameObject.mk 50 360 40 40 0) [] 0 0) /\
  handleKeyDown "Space" (st w) = initialState.
Proof.
  intros Hover w'. subst w'. unfold step, handleKeyDown, restartGuard.
  rewrite Hover. simpl. repeat split; reflexivity.
Qed.

Lemma restart_resets_witness :
  let s := mkState true (GameObject.mk 50 300 40 40 (7 # 2))
                   [Obstacle.mk 60 30 60; Obstacle.mk 600 45 80] true 1234 in
  let w' := step (render s) (KeyDown "Space") in
  score (st w') = 0 /\
  obstacles (st w') = [] /\
  player (st w') = GameObject.mk 50 360 40 40 0 /\
  isJumping (st w') = false /\
  gameOver (st w') = false /\
  loop w' = Some (mkLoop (GameObject.mk 50 360 40 40 0) [] 0 0) /\
  handleKeyDown "Space" s = initialState.
Proof.
  intro s. exact (restart_resets (render s) eq_refl).
Defined.

(** C4 (single jump).  [JUMP_FORCE] is negative.  A jump key ([Space] or
    [ArrowUp]) pressed while the session runs and the player is not airborne
    sets [velocityY = JUMP_FORCE] and [isJumping = true] and changes nothing
    else.  The Jump intent (the second [if] of the handler) does nothing
    while airborne or while the session is over; the whole handler does
    nothing while airborne, and nothing while the session is over unless the
    key is the one the Restart branch takes ([Space], see C3 and C10). *)
Theorem single_jump (code : string) (s : State) :
  code = "Space"%string \/ code = "ArrowUp"%string ->
  JUMP_FORCE < 0 /\
  (gameOver s = false -> isJumping s = false ->
     handleKeyDown code s =
       mkState false
               (GameObject.mk (GameObject.x (player s)) (GameObject.y (player s))
                              (GameObject.width (player s)) (GameObject.height (player s))
                              JUMP_FORCE)
               (obstacles s) true (score s)) /\
  (isJumping s = true \/ gameOver s = true -> jumpIntent code s = s) /\
  (gameOver s = false -> isJumping s = true -> handleKeyDown code s = s) /\
  (gameOver s = true -> code = "ArrowUp"%string -> handleKeyDown code s = s).
Proof.
  intro Hkey. split; [reflexivity|].
  assert (Hidle : isJumping s = true \/ gameOver s = true -> jumpIntent code s = s).
  { intro H. unfold jumpIntent.
    destruct (jumpGuard code s) eqn:G; [|reflexivity].
    apply jumpGuard_true_iff in G. destruct G as (_ & Hj & Ho).
    destruct H; congruence. }
  split; [|split; [|split]].
  - intros Ho Hj. unfold handleKeyDown, restartGuard, jumpIntent.
    rewrite Ho. simpl.
    assert (G : jumpGuard code s = true) by (apply jumpGuard_true_iff; tauto).
    rewrite G. unfold jump, setIsJumping, setPlayer, withVelocityY. simpl.
    now rewrite Ho.
  - exact Hidle.
  - intros Ho Hj. unfold handleKeyDown, restartGuard. rewrite Ho. simpl.
    apply Hidle. now left.
  - intros Ho ->. unfold handleKeyDown, restartGuard. rewrite Ho. simpl.
    apply Hidle. now right.
Qed.

Lemma single_jump_witness :
  handleKeyDown "ArrowUp" initialState
    = mkState false (GameObject.mk 50 (GROUND_HEIGHT - 40) 40 40 JUMP_FORCE) [] true 0 /\
  handleKeyDown "Space" (handleKeyDown "ArrowUp" initialState)
    = handleKeyDown "ArrowUp" initialState.
Proof.
  split.
  - destruct (single_jump "ArrowUp" initialState) as (_ & Hjump & _);
      [right; reflexivity|].
    apply Hjump; reflexivity.
  - destruct (single_jump "Space" (handleKeyDown "ArrowUp" initialState))
      as (_ & _ & _ & Hair & _); [left; reflexivity|].
    apply Hair; reflexivity.
Defined.

(** C10 (restart key asymmetry).  While [gameOver] holds, [Space] restarts,
    and a key press with any other code, [ArrowUp] included, leaves the five
    state cells and the loop closure as they were. *)
Theorem restart_key_asymmetry (code : string) (w : World) :
  gameOver (st w) = true ->
  (code = "Space"%string -> handleKeyDown code (st w) = resetGame (st w)) /\
  (code <> "Space"%string ->
     handleKeyDown code (st w) = st w /\ step w (KeyDown code) = w) /\
  handleKeyDown "ArrowUp" (st w) = st w.
Proof.
  intro Hover.
  assert (Hother : forall c, c <> "Space"%string ->
            handleKeyDown c (st w) = st w /\ step w (KeyDown c) = w).
  { intros c Hc. apply String.eqb_neq in Hc.
    unfold step, handleKeyDown, restartGuard, jumpIntent, jumpGuard.
    rewrite Hover, Hc. simpl. rewrite !andb_false_r. split; reflexivity. }
  split; [|split].
  - intros ->. unfold handleKeyDown, restartGuard. now rewrite Hover.
  - apply Hother.
  - apply Hother. discriminate.
Qed.

Lemma restart_key_asymmetry_witness :
  let s := mkState true (GameObject.mk 50 300 40 40 (7 # 2))
                   [Obstacle.mk 60 30 60] true 1234 in
  step (render s) (KeyDown "ArrowUp") = render s /\
  step (render s) (KeyDown "Enter") = render s /\
  handleKeyDown "Space" s = initialState.
Proof.
  intro s.
  destruct (restart_key_asymmetry "ArrowUp" (render s) eq_refl) as (_ & Hup & _).
  destruct (restart_key_asymmetry "Enter" (render s) eq_refl) as (_ & Hent & _).
  destruct (restart_key_asymmetry "Space" (render s) eq_refl) as (Hsp & _).
  split; [|split].
  - apply Hup. discriminate.
  - apply Hent. discriminate.
  - apply Hsp. reflexivity.
Defined.

(** * Collisions *)

Lemma rendered_loop (w : World) (l : Loop) :
  rendered w -> loop w = Some l ->
  gameOver (st w) = false /\ l = mkLoop (player (st w)) (obstacles (st w)) 0 0.
Proof.
  unfold rendered, mountLoop. intros Hr Hl. rewrite Hl in Hr.
  destruct (gameOver (st w)); [discriminate|].
  injection Hr as ->. split; reflexivity.
Qed.

Lemma rendered_running (w : World) :
  rendered w -> gameOver (st w) = false ->
  loop w = Some (mkLoop (player (st w)) (obstacles (st w)) 0 0).
Proof.
  unfold rendered, mountLoop. intros -> ->. reflexivity.
Qed.

Lemma rendered_render (s : State) : rendered (render s).
Proof. reflexivity. Qed.

Lemma rendered_step (w : World) (e : Event) : rendered w -> rendered (step w e).
Proof.
  intro Hr. destruct e as [t rnd|code]; simpl.
  - destruct (loop w); [apply rendered_render|exact Hr].
  - destruct (_ || _); [apply rendered_render|exact Hr].
Qed.

(** The test lags one frame behind: an obstacle at [x = 92] does not overlap
    the player before the frame and does (at 87) after it, yet the frame does
    not end the session. *)
Example collision_uses_positions_before_the_frame :
  let s := mkState false (GameObject.mk 50 360 40 40 0) [Obstacle.mk 92 30 60] false 0 in
  let s' := st (step (render s) (AnimationFrame 16 (mkDraws 0 0 0))) in
  gameOver s' = false /\
  existsb (checkCollision (player s')) (obstacles s') = true.
Proof. split; reflexivity. Qed.

(** * Obstacles *)

Section SortedLists.
Variable A : Type.
Variable R : A -> A -> Prop.

Lemma StronglySorted_filter (f : A -> bool) (l : list A) :
  StronglySorted R l -> StronglySorted R (filter f l).
Proof.
  induction 1 as [|a l Hs IH Hall]; simpl; [constructor|].
  destruct (f a); [|exact IH].
  constructor; [exact IH|].
  rewrite Forall_forall in *. intros b Hb. apply filter_In in Hb.
  apply Hall, Hb.
Qed.

Lemma StronglySorted_snoc (l : list A) (n : A) :
  StronglySorted R l -> Forall (fun a => R a n) l -> StronglySorted R (l ++ [n]).
Proof.
  induction 1 as [|a l Hs IH Hall]; intro Hn; simpl.
  - repeat constructor.
  - inversion Hn as [|? ? Han Hln]; subst.
    constructor; [now apply IH|].
    apply Forall_app. split; [exact Hall|]. now constructor.
Qed.

(** The last element of a non-empty list does not depend on the default. *)
Lemma last_cons (l : list A) (a d : A) : last (a :: l) d = last l a.
Proof.
  revert a d. induction l as [|b l IH]; intros a d; [reflexivity|].
  change (last (a :: b :: l) d) with (last (b :: l) d).
  now rewrite (IH b d), (IH b a).
Qed.
End SortedLists.

Lemma spaced_advance (a b : Obstacle.t) : spaced a b -> spaced (advance a) (advance b).
Proof. unfold spaced, advance, OBSTACLE_SPEED. simpl. lra. Qed.

Lemma StronglySorted_advance (l : list Obstacle.t) :
  StronglySorted spaced l -> StronglySorted spaced (map advance l).
Proof.
  induction 1 as [|a l Hs IH Hall]; simpl; constructor; [exact IH|].
  rewrite Forall_forall in *. intros b Hb. apply in_map_iff in Hb.
  destruct Hb as (b0 & <- & Hb0). apply spaced_advance, Hall, Hb0.
Qed.

(** In a spaced list the last obstacle is the rightmost one. *)
Lemma spaced_last_rightmost (l : list Obstacle.t) (o : Obstacle.t) :
  StronglySorted spaced (o :: l) ->
  Forall (fun a => Obstacle.x a <= Obstacle.x (last l o)) (o :: l).
Proof.
  revert o. induction l as [|b l IH]; intros o Hs.
  - simpl. constructor; [apply Qle_refl|constructor].
  - inversion Hs as [|? ? Hs' Hall]; subst.
    specialize (IH b Hs').
    rewrite last_cons. constructor; [|exact IH].
    inversion Hall as [|? ? Hob _]; subst.
    inversion IH as [|? ? Hb _]; subst.
    unfold spaced, MIN_DISTANCE_BETWEEN_OBSTACLES in Hob. lra.
Qed.

Lemma canSpawnObstacle_all (l : list Obstacle.t) :
  StronglySorted spaced l -> canSpawnObstacle l = true ->
  Forall (fun a => Obstacle.x a < CANVAS_WIDTH - MIN_DISTANCE_BETWEEN_OBSTACLES) l.
Proof.
  destruct l as [|o l]; intros Hs Hc; [constructor|].
  simpl in Hc. apply Qlt_bool_iff in Hc.
  pose proof (spaced_last_rightmost l o Hs) as Hall.
  rewrite Forall_forall in *. intros a Ha. specialize (Hall a Ha). simpl in Hall.
  eapply Qle_lt_trans; eassumption.
Qed.

Lemma canSpawnObstacle_iff (l : list Obstacle.t) :
  canSpawnObstacle l = true <-> distanceConstraint l.
Proof.
  unfold distanceConstraint. destruct l as [|o l]; simpl.
  - split; [now left|reflexivity].
  - rewrite Qlt_bool_iff. split.
    + intro H. right.
      destruct (exists_last (l := o :: l)) as (front & lastObstacle & E);
        [discriminate|].
      exists front, lastObstacle. split; [exact E|].
      assert (E' : last l o = lastObstacle).
      { rewrite <- (last_cons _ l o o), E. apply last_last. }
      now rewrite <- E'.
    + intros [H|(front & lastObstacle & E & H)]; [discriminate|].
      assert (E' : last l o = lastObstacle).
      { rewrite <- (last_cons _ l o o), E. apply last_last. }
      now rewrite E'.
Qed.

Lemma onScreen_visible (o : Obstacle.t) : onScreen o = true <-> visible o.
Proof. apply Qlt_bool_iff. Qed.

Lemma updateObstacles_In (prev : list Obstacle.t) (o' : Obstacle.t) :
  In o' (updateObstacles prev) <->
  exists o, In o prev /\ o' = advance o /\ visible o'.
Proof.
  unfold updateObstacles. rewrite filter_In, in_map_iff, onScreen_visible.
  split.
  - intros ((o & E & Hin) & Hv). exists o. now repeat split.
  - intros (o & Hin & E & Hv). split; [|exact Hv]. exists o. now split.
Qed.

Lemma updateObstacles_visible (prev : list Obstacle.t) :
  Forall visible (updateObstacles prev).
Proof.
  apply Forall_forall. intros o Ho. apply updateObstacles_In in Ho.
  now destruct Ho as (_ & _ & _ & Hv).
Qed.

Lemma updateObstacles_spaced (prev : list Obstacle.t) :
  StronglySorted spaced prev -> StronglySorted spaced (updateObstacles prev).
Proof.
  intro H. apply StronglySorted_filter, StronglySorted_advance, H.
Qed.

(** The obstacle list handed to "Update obstacles". *)
Lemma spawn_obstacles (l : Loop) (rnd : Draws) (t : Q) (s : State) :
  obstacles (fst (spawn l rnd t s)) =
    if spawnFires l rnd t then obstacles s ++ [createObstacle rnd] else obstacles s.
Proof.
  rewrite spawn_fires. destruct (spawnFires _ _ _); reflexivity.
Qed.

Lemma spawnFires_iff (l : Loop) (rnd : Draws) (t : Q) :
  spawnFires l rnd t = true <->
  spawnThreshold rnd < accumulatedTimer l t /\
  distanceConstraint (capturedObstacles l).
Proof.
  unfold spawnFires, accumulatedTimer.
  now rewrite andb_true_iff, Qlt_bool_iff, canSpawnObstacle_iff.
Qed.

Lemma createObstacle_range (rnd : Draws) :
  validDraw (rndWidth rnd) -> validDraw (rndHeight rnd) ->
  Obstacle.x (createObstacle rnd) = CANVAS_WIDTH /\
  (30 <= Obstacle.width (createObstacle rnd) /\ Obstacle.width (createObstacle rnd) < 50) /\
  (50 <= Obstacle.height (createObstacle rnd) /\ Obstacle.height (createObstacle rnd) < 100).
Proof.
  unfold validDraw, createObstacle. simpl. intros [Hw0 Hw1] [Hh0 Hh1].
  repeat split; try reflexivity; lra.
Qed.

(** ** Invariants of the reachable worlds *)

Lemma Qplus_inject_Z (a b : Z) : inject_Z a + inject_Z b = inject_Z (a + b).
Proof.
  unfold inject_Z, Qplus. simpl. now rewrite !Z.mul_1_r.
Qed.

Lemma incrementScore_score (deltaTime : Q) (s : State) :
  score (incrementScore deltaTime s) =
    if truthy deltaTime then score s + inject_Z (Qfloor (deltaTime / 100))
    else score s.
Proof.
  unfold incrementScore. destruct (truthy deltaTime); reflexivity.
Qed.

Lemma incrementScore_integer (deltaTime : Q) (s : State) :
  isInteger (score s) -> isInteger (score (incrementScore deltaTime s)).
Proof.
  intros [z Hz]. rewrite incrementScore_score.
  destruct (truthy deltaTime); [|now exists z].
  rewrite Hz, Qplus_inject_Z. now eexists.
Qed.

Lemma handleKeyDown_cases (code : string) (s : State) :
  handleKeyDown code s = initialState \/
  (obstacles (handleKeyDown code s) = obstacles s /\
   score (handleKeyDown code s) = score s /\
   gameOver (handleKeyDown code s) = gameOver s).
Proof.
  unfold handleKeyDown, jumpIntent.
  destruct (restartGuard code s); [now left|].
  right. destruct (jumpGuard code s); repeat split.
Qed.

Lemma frame_obstacles (w : World) (l : Loop) (t : Q) (rnd : Draws) :
  loop w = Some l ->
  obstacles (st (step w (AnimationFrame t rnd))) =
    updateObstacles
      (if spawnFires l rnd t then obstacles (st w) ++ [createObstacle rnd]
       else obstacles (st w)).
Proof.
  intro Hl. simpl. rewrite Hl. simpl.
  now rewrite gameLoop_obstacles, spawn_obstacles.
Qed.

Lemma frame_score (w : World) (l : Loop) (t : Q) (rnd : Draws) :
  loop w = Some l ->
  score (st (step w (AnimationFrame t rnd))) =
    score (incrementScore (t - lastTimestamp l) (st w)).
Proof.
  intro Hl. simpl. rewrite Hl. simpl. apply gameLoop_score.
Qed.

Lemma spawn_keeps_spaced (l : list Obstacle.t) (rnd : Draws) :
  StronglySorted spaced l -> canSpawnObstacle l = true ->
  StronglySorted spaced (l ++ [createObstacle rnd]).
Proof.
  intros Hs Hc. apply StronglySorted_snoc; [exact Hs|].
  pose proof (canSpawnObstacle_all l Hs Hc) as Hall.
  rewrite Forall_forall in *. intros a Ha. specialize (Hall a Ha). simpl in Hall.
  unfold spaced, createObstacle. simpl. lra.
Qed.

Lemma step_invariant (w : World) (e : Event) : invariant w -> invariant (step w e).
Proof.
  intros (Hr & Hs & Hv & Hi).
  split; [now apply rendered_step|].
  destruct e as [t rnd|code].
  - destruct (loop w) as [l|] eqn:Hl.
    + rewrite (frame_obstacles w l t rnd Hl), (frame_score w l t rnd Hl).
      destruct (rendered_loop w l Hr Hl) as [_ El].
      split; [|split].
      * apply updateObstacles_spaced.
        destruct (spawnFires l rnd t) eqn:F; [|exact Hs].
        unfold spawnFires in F. apply andb_true_iff in F. destruct F as [_ F].
        rewrite El in F. simpl in F. now apply spawn_keeps_spaced.
      * apply updateObstacles_visible.
      * now apply incrementScore_integer.
    + simpl. rewrite Hl. now repeat split.
  - simpl. destruct (_ || _); [|now repeat split].
    simpl. destruct (handleKeyDown_cases code (st w)) as [->|(-> & -> & _)].
    + repeat split; try constructor. now exists 0%Z.
    + now repeat split.
Qed.

Lemma initial_invariant : invariant initialWorld.
Proof.
  repeat split; try constructor. now exists 0%Z.
Qed.

Lemma reachable_invariant (w : World) : reachable w -> invariant w.
Proof.
  induction 1; [apply initial_invariant|now apply step_invariant].
Qed.

Lemma run_invariant (es : list Event) (w : World) : invariant w -> invariant (run w es).
Proof.
  revert w. induction es as [|e es IH]; intros w Hw; [exact Hw|].
  apply IH, step_invariant, Hw.
Qed.

Lemma reachable_run (es : list Event) (w : World) : reachable w -> reachable (run w es).
Proof.
  revert w. induction es as [|e es IH]; intros w Hw; [exact Hw|].
  apply IH. now constructor.
Qed.

(** C6 (spacing invariant).  In every world reachable from the initial one
    by frames and key presses, a frame that spawns appends an obstacle whose
    initial [x] is [canvas.width], and that [x] minus the current [x] of the
    previously appended obstacle (the last of the list), or of any obstacle
    still in the list, is not less than [MIN_DISTANCE_BETWEEN_OBSTACLES];
    after the frame any two obstacles of the list are still more than that
    distance apart. *)
Theorem spawn_spacing (w : World) (l : Loop) (t : Q) (rnd : Draws) :
  reachable w -> loop w = Some l -> spawnFires l rnd t = true ->
  let new := createObstacle rnd in
  obstacles (fst (spawn l rnd t (st w))) = obstacles (st w) ++ [new] /\
  Obstacle.x new = CANVAS_WIDTH /\
  (forall front previous,
     obstacles (st w) = front ++ [previous] ->
     ~ Obstacle.x new - Obstacle.x previous < MIN_DISTANCE_BETWEEN_OBSTACLES) /\
  (forall o,
     In o (obstacles (st w)) ->
     ~ Obstacle.x new - Obstacle.x o < MIN_DISTANCE_BETWEEN_OBSTACLES) /\
  StronglySorted spaced (obstacles (st (step w (AnimationFrame t rnd)))).
Proof.
  intros Hreach Hl Hfire new.
  destruct (reachable_invariant w Hreach) as (Hr & Hs & _ & _).
  destruct (rendered_loop w l Hr Hl) as [_ El].
  assert (Hcan : canSpawnObstacle (obstacles (st w)) = true).
  { unfold spawnFires in Hfire. apply andb_true_iff in Hfire.
    destruct Hfire as [_ Hc]. now rewrite El in Hc. }
  assert (Hall : forall o, In o (obstacles (st w)) ->
            ~ Obstacle.x new - Obstacle.x o < MIN_DISTANCE_BETWEEN_OBSTACLES).
  { pose proof (canSpawnObstacle_all _ Hs Hcan) as Hb.
    rewrite Forall_forall in Hb. intros o Ho Hlt. specialize (Hb o Ho).
    simpl in Hb. unfold new, createObstacle in Hlt. simpl in Hlt. lra. }
  split; [|split; [|split; [|split]]].
  - rewrite spawn_obstacles, Hfire. reflexivity.
  - reflexivity.
  - intros front previous E. apply Hall. rewrite E.
    apply in_or_app. right. now left.
  - exact Hall.
  - apply (reachable_invariant _ (reach_step w (AnimationFrame t rnd) Hreach)).
Qed.

(** After a first spawn and eighty more frames the obstacle stands at 395;
    the next spawn is 405 away from it. *)
Lemma spawn_spacing_witness :
  let rnd := mkDraws (1 # 2) (1 # 4) (1 # 2) in
  let w := run initialWorld (repeat (AnimationFrame 1000 rnd) 81) in
  obstacles (st w) = [] ++ [Obstacle.mk 395 (140 # 4) (150 # 2)] /\
  ~ Obstacle.x (createObstacle rnd) - 395 < MIN_DISTANCE_BETWEEN_OBSTACLES.
Proof.
  intros rnd w.
  assert (E : obstacles (st w) = [] ++ [Obstacle.mk 395 (140 # 4) (150 # 2)])
    by (vm_compute; reflexivity).
  split; [exact E|].
  assert (Hl : loop w = Some (mkLoop (player (st w)) (obstacles (st w)) 0 0))
    by (vm_compute; reflexivity).
  destruct (spawn_spacing w _ 1000 rnd
              (reachable_run (repeat (AnimationFrame 1000 rnd) 81) _ reach_init) Hl)
    as (_ & _ & Hprev & _).
  - vm_compute. reflexivity.
  - exact (Hprev [] (Obstacle.mk 395 (140 # 4) (150 # 2)) E).
Defined.

Lemma step_visible (w : World) (e : Event) :
  Forall visible (obstacles (st w)) -> Forall visible (obstacles (st (step w e))).
Proof.
  intro Hv. destruct e as [t rnd|code].
  - destruct (loop w) as [l|] eqn:Hl.
    + rewrite (frame_obstacles w l t rnd Hl). apply updateObstacles_visible.
    + simpl. now rewrite Hl.
  - simpl. destruct (_ || _); [|exact Hv].
    simpl. destruct (handleKeyDown_cases code (st w)) as [->|(-> & _)].
    + constructor.
    + exact Hv.
Qed.

Lemma run_visible (es : list Event) (w : World) :
  Forall visible (obstacles (st w)) -> Forall visible (obstacles (st (run w es))).
Proof.
  revert w. induction es as [|e es IH]; intros w Hv; [exact Hv|].
  apply IH, step_visible, Hv.
Qed.

(** C7 (obstacle advance and culling).  A frame that runs (the world has a
    loop closure, which it has exactly while the session is running) takes
    the list left by the spawn block, moves every obstacle left by exactly
    [OBSTACLE_SPEED] keeping its size, and keeps, in order, exactly those
    with [x + width > 0].  An obstacle with [x + width <= 0], before the
    frame or once advanced, is therefore not in the list after it, and
    whatever events follow, no obstacle with [x + width <= 0] is ever in the
    list again. *)
Theorem obstacle_advance_and_culling
    (w : World) (l : Loop) (t : Q) (rnd : Draws) (es : list Event) :
  loop w = Some l ->
  let pending :=
    if spawnFires l rnd t then obstacles (st w) ++ [createObstacle rnd]
    else obstacles (st w) in
  let w' := step w (AnimationFrame t rnd) in
  (forall o,
     Obstacle.x (advance o) = Obstacle.x o - OBSTACLE_SPEED /\
     Obstacle.width (advance o) = Obstacle.width o /\
     Obstacle.height (advance o) = Obstacle.height o) /\
  obstacles (st w') =
    filter (fun o => Qlt_bool 0 (Obstacle.x o + Obstacle.width o)) (map advance pending) /\
  (forall o', In o' (obstacles (st w')) <->
              exists o, In o pending /\ o' = advance o /\
                        0 < Obstacle.x o' + Obstacle.width o') /\
  (forall o, In o (obstacles (st w)) ->
             Obstacle.x o + Obstacle.width o <= 0 \/
             Obstacle.x (advance o) + Obstacle.width (advance o) <= 0 ->
             ~ In (advance o) (obstacles (st w'))) /\
  (forall o, Obstacle.x o + Obstacle.width o <= 0 ->
             ~ In o (obstacles (st (run w' es)))).
Proof.
  intros Hl pending w'.
  assert (E : obstacles (st w') = updateObstacles pending)
    by apply (frame_obstacles w l t rnd Hl).
  assert (Hgone : forall es' o, Obstacle.x o + Obstacle.width o <= 0 ->
            ~ In o (obstacles (st (run w' es')))).
  { intros es' o Hoff Hin.
    assert (Hv : Forall visible (obstacles (st (run w' es')))).
    { apply run_visible. rewrite E. apply updateObstacles_visible. }
    rewrite Forall_forall in Hv. specialize (Hv o Hin).
    unfold visible in Hv. lra. }
  split; [intro o; repeat split|]. split; [exact E|]. split; [|split].
  - intro o'. rewrite E. apply updateObstacles_In.
  - intros o _ Hoff. apply (Hgone [] (advance o)).
    destruct Hoff as [Hoff|Hoff]; [|exact Hoff].
    unfold advance, OBSTACLE_SPEED. simpl. lra.
  - apply Hgone.
Qed.

(** An obstacle at [x = -28] of width 30 is culled by the next frame while
    the one at 300 moves to 295, and it is still absent after a jump and
    another frame. *)
Lemma obstacle_advance_and_culling_witness :
  let s := mkState false initialPlayer
                   [Obstacle.mk (-28) 30 60; Obstacle.mk 300 40 70] false 0 in
  let rnd := mkDraws (1 # 2) (1 # 4) (1 # 2) in
  let w' := step (render s) (AnimationFrame 16 rnd) in
  In (advance (Obstacle.mk 300 40 70)) (obstacles (st w')) /\
  ~ In (advance (Obstacle.mk (-28) 30 60)) (obstacles (st w')) /\
  ~ In (advance (advance (Obstacle.mk (-28) 30 60)))
       (obstacles (st (run w' [KeyDown "Space"; AnimationFrame 32 rnd]))).
Proof.
  intros s rnd w'.
  destruct (obstacle_advance_and_culling (render s)
              (mkLoop initialPlayer (obstacles s) 0 0) 16 rnd
              [KeyDown "Space"; AnimationFrame 32 rnd] eq_refl)
    as (_ & _ & Hin & Hcull & Hnever).
  split; [|split].
  - apply Hin. exists (Obstacle.mk 300 40 70).
    split; [right; left; reflexivity|]. split; [reflexivity|].
    vm_compute. reflexivity.
  - apply Hcull; [left; reflexivity|]. right. vm_compute. discriminate.
  - apply Hnever. vm_compute. discriminate.
Defined.

(** * Score and timing *)


Lemma floor_hundredth_nonneg (d : Q) : 0 <= d -> 0 <= inject_Z (Qfloor (d / 100)).
Proof.
  intro Hd.
  assert (H0 : 0 <= d / 100).
  { apply Qle_shift_div_l; [reflexivity|]. lra. }
  apply Qfloor_resp_le in H0. rewrite <- (Qfloor_Z 0) in H0 at 1.
  change (inject_Z 0 <= inject_Z (Qfloor (d / 100))).
  rewrite <- Zle_Qle. simpl in H0. exact H0.
Qed.

Lemma rendered_delta (w : World) (l : Loop) (t : Q) :
  rendered w -> loop w = Some l -> t - lastTimestamp l == t.
Proof.
  intros Hr Hl. destruct (rendered_loop w l Hr Hl) as [_ ->]. simpl. lra.
Qed.

Lemma frame_score_le (w : World) (t : Q) (rnd : Draws) :
  rendered w -> 0 <= t ->
  score (st w) <= score (st (step w (AnimationFrame t rnd))).
Proof.
  intros Hr Ht. destruct (loop w) as [l|] eqn:Hl.
  - rewrite (frame_score w l t rnd Hl), incrementScore_score.
    destruct (truthy _); [|apply Qle_refl].
    assert (Hd : 0 <= t - lastTimestamp l)
      by (rewrite (rendered_delta w l t Hr Hl); exact Ht).
    pose proof (floor_hundredth_nonneg _ Hd). lra.
  - simpl. rewrite Hl. apply Qle_refl.
Qed.






(** C9, amended (first-frame delta).  A closure starts with
    [lastTimestamp = 0], so on its first frame [deltaTime] equals the
    timestamp of the frame: the spawn timer accumulates to that timestamp
    (and is then reset only if the frame spawns), and a timestamp other than
    0 adds [floor(timestamp / 100)] to the score.  The first frame
    contributes nothing exactly when its timestamp is 0. *)
Theorem first_frame_delta (s : State) (l : Loop) (rnd : Draws) (t : Q) :
  mountLoop s = Some l ->
  let deltaTime := t - lastTimestamp l in
  deltaTime == t /\
  accumulatedTimer l t == t /\
  obstacleSpawnTimer (fst (gameLoop l rnd t s))
    = (if spawnFires l rnd t then 0 else accumulatedTimer l t) /\
  (~ t == 0 ->
     score (snd (gameLoop l rnd t s)) = score s + inject_Z (Qfloor (t / 100))) /\
  (t == 0 ->
     score (snd (gameLoop l rnd t s)) = score s /\ accumulatedTimer l t == 0).
Proof.
  intros Hl deltaTime.
  assert (El : l = mkLoop (player s) (obstacles s) 0 0).
  { unfold mountLoop in Hl. destruct (gameOver s); [discriminate|].
    now injection Hl as <-. }
  assert (Hd : deltaTime == t) by (subst deltaTime l; simpl; lra).
  assert (Ha : accumulatedTimer l t == t)
    by (subst l; unfold accumulatedTimer; simpl; lra).
  split; [exact Hd|]. split; [exact Ha|].
  split; [apply gameLoop_timer|].
  rewrite gameLoop_score, incrementScore_score. fold deltaTime. split.
  - intro Ht.
    assert (Htr : truthy deltaTime = true)
      by (apply truthy_true_iff; now rewrite Hd).
    rewrite Htr. do 2 f_equal. apply Qfloor_comp. now rewrite Hd.
  - intro Ht.
    assert (Htr : truthy deltaTime = false)
      by (apply truthy_false_iff; now rewrite Hd).
    rewrite Htr. split; [reflexivity|]. now rewrite Ha.
Qed.

Lemma first_frame_delta_witness :
  let rnd := mkDraws (1 # 2) (1 # 4) (1 # 2) in
  let l := mkLoop initialPlayer [] 0 0 in
  score (snd (gameLoop l rnd 250 initialState)) = 0 + inject_Z (Qfloor (250 / 100)) /\
  score (snd (gameLoop l rnd 0 initialState)) = 0.
Proof.
  intros rnd l.
  destruct (first_frame_delta initialState l rnd 250 eq_refl) as (_ & _ & _ & Hnz & _).
  destruct (first_frame_delta initialState l rnd 0 eq_refl) as (_ & _ & _ & _ & Hz).
  split.
  - apply Hnz. vm_compute. discriminate.
  - apply Hz. reflexivity.
Defined.

(** C9 as stated fails: the first frame of the initial session, at timestamp
    250, computes [deltaTime = 250], leaves 250 in the spawn timer and adds
    2 to the score. *)
Lemma first_frame_delta_counterexample :
  let rnd := mkDraws (1 # 2) (1 # 4) (1 # 2) in
  let l := mkLoop initialPlayer [] 0 0 in
  loop initialWorld = Some l /\
  ~ 250 - lastTimestamp l == 0 /\
  obstacleSpawnTimer (fst (gameLoop l rnd 250 initialState)) = 250 /\
  score (snd (gameLoop l rnd 250 initialState)) = 2 /\
  ~ score (st (step initialWorld (AnimationFrame 250 rnd))) == score (st initialWorld).
Proof.
  repeat split; vm_compute; congruence.
Qed.

(** * The player under atomic frames *)

Lemma updatePlayer_playerInvariant (s : State) :
  playerInvariant (player s) (isJumping s) ->
  playerInvariant (player (updatePlayer s)) (isJumping (updatePlayer s)).
Proof.
  intros (Hx & Hw & Hh & Hrest & Hair). unfold updatePlayer.
  destruct (Qle_bool _ _) eqn:E; simpl.
  - rewrite Hx, Hw, Hh.
    split_playerInvariant; try reflexivity; discriminate.
  - destruct (isJumping s) eqn:Hj.
    + destruct (Hair eq_refl) as (Hy & Hlo & Hhi).
      assert (Hlt : GameObject.y (player s) + GameObject.velocityY (player s)
                    < GROUND_HEIGHT - GameObject.height (player s)).
      { apply Qnot_le_lt. intro Hle. apply Qle_bool_iff in Hle. congruence. }
      rewrite Hh in Hlt.
      unfold GROUND_HEIGHT, JUMP_FORCE, GRAVITY in *.
      split_playerInvariant; try assumption; try discriminate.
      intros _. simpl. unfold GROUND_HEIGHT, JUMP_FORCE, GRAVITY.
      split; [rewrite Hy; ring|]. split; [lra|].
      rewrite Hy in Hlt.
      set (v := GameObject.velocityY (player s)) in *.
      assert (Hprod : (v + (25 # 2)) * (v - 12) < 0) by (ring_simplify; lra).
      assert (Hpos : 0 < v + (25 # 2)) by lra.
      destruct (Qlt_le_dec v 12) as [Hv|Hv]; [lra|].
      exfalso. assert (0 <= (v + (25 # 2)) * (v - 12)).
      { apply Qmult_le_0_compat; lra. }
      lra.
    + rewrite (Hrest eq_refl) in E. vm_compute in E. discriminate.
Qed.

Lemma jump_playerInvariant (s : State) :
  playerInvariant (player s) (isJumping s) -> isJumping s = false ->
  playerInvariant (player (jump s)) (isJumping (jump s)).
Proof.
  intros (_ & _ & _ & Hrest & _) Hj. unfold jump. simpl.
  rewrite (Hrest Hj).
  split_playerInvariant; try reflexivity; try discriminate.
  intros _. split; [reflexivity|]. split; vm_compute; discriminate.
Qed.

Lemma restart_playerInvariant :
  playerInvariant initialPlayer false.
Proof.
  split_playerInvariant; try reflexivity; discriminate.
Qed.

Lemma step_playerInvariant (w : World) (e : Event) :
  playerInvariant (player (st w)) (isJumping (st w)) ->
  playerInvariant (player (st (step w e))) (isJumping (st (step w e))).
Proof.
  intro Hp. destruct e as [t rnd|code]; simpl.
  - destruct (loop w) as [l|]; [|exact Hp]. simpl.
    destruct (gameLoop_player l rnd t (st w)) as [-> ->].
    now apply updatePlayer_playerInvariant.
  - destruct (_ || _); [|exact Hp]. simpl.
    unfold handleKeyDown, jumpIntent.
    destruct (restartGuard code (st w)).
    + apply restart_playerInvariant.
    + destruct (jumpGuard code (st w)) eqn:G; [|exact Hp].
      apply jump_playerInvariant; [exact Hp|].
      now apply jumpGuard_true_iff in G.
Qed.

Lemma initial_playerInvariant :
  playerInvariant (player (st initialWorld)) (isJumping (st initialWorld)).
Proof. apply restart_playerInvariant. Qed.

(** ** The arc of a jump *)

Lemma Qnat_succ (k : nat) : Qnat (S k) == Qnat k + 1.
Proof.
  unfold Qnat. rewrite Nat2Z.inj_succ. unfold Z.succ.
  rewrite inject_Z_plus. reflexivity.
Qed.

Lemma Qnat_le (a b : nat) : (a <= b)%nat -> Qnat a <= Qnat b.
Proof.
  intro H. unfold Qnat. rewrite <- Zle_Qle. now apply Nat2Z.inj_le.
Qed.

Lemma jumpVelocity_succ (k : nat) : jumpVelocity (S k) == jumpVelocity k + GRAVITY.
Proof.
  unfold jumpVelocity, GRAVITY, JUMP_FORCE. rewrite Qnat_succ. ring.
Qed.

Lemma jumpY_succ (y0 : Q) (k : nat) :
  jumpY y0 (S k) == jumpY y0 k + jumpVelocity k.
Proof.
  unfold jumpY, jumpVelocity, GRAVITY, JUMP_FORCE. rewrite Qnat_succ. field.
Qed.

(** [jumpY y0 k - y0] is [k (k - 49) / 4]. *)
Lemma jumpY_factor (y0 : Q) (k : nat) :
  jumpY y0 k == y0 - (1 # 4) * (Qnat k * (49 - Qnat k)).
Proof.
  unfold jumpY, GRAVITY, JUMP_FORCE. field.
Qed.

Lemma jumpY_airborne (y0 : Q) (k : nat) :
  (1 <= k <= 48)%nat -> jumpY y0 k < y0.
Proof.
  intros [Hlo Hhi]. rewrite jumpY_factor.
  apply Qnat_le in Hlo. apply Qnat_le in Hhi.
  change (Qnat 1) with 1 in Hlo. change (Qnat 48) with 48 in Hhi.
  assert (Hpos : 0 < Qnat k * (49 - Qnat k))
    by (apply Qmult_lt_0_compat; lra).
  set (area := Qnat k * (49 - Qnat k)) in *. lra.
Qed.

Lemma jumpY_landing (y0 : Q) : jumpY y0 49 == y0.
Proof.
  rewrite jumpY_factor. change (Qnat 49) with 49. field.
Qed.

(** From the 11th to the 38th frame the player is at least 100 pixels up. *)
Lemma jumpY_high (y0 : Q) (k : nat) :
  (11 <= k <= 38)%nat -> jumpY y0 k <= y0 - 100.
Proof.
  intros [Hlo Hhi]. rewrite jumpY_factor.
  apply Qnat_le in Hlo. apply Qnat_le in Hhi.
  change (Qnat 11) with 11 in Hlo. change (Qnat 38) with 38 in Hhi.
  assert (Hpos : 0 <= (Qnat k - 11) * (38 - Qnat k))
    by (apply Qmult_le_0_compat; lra).
  setoid_replace (Qnat k * (49 - Qnat k))
    with ((Qnat k - 11) * (38 - Qnat k) + 418) by ring.
  set (area := (Qnat k - 11) * (38 - Qnat k)) in *. lra.
Qed.

Lemma iter_updatePlayer_cong (k : nat) (s s' : State) :
  player s = player s' -> isJumping s = isJumping s' ->
  player (Nat.iter k updatePlayer s) = player (Nat.iter k updatePlayer s') /\
  isJumping (Nat.iter k updatePlayer s) = isJumping (Nat.iter k updatePlayer s').
Proof.
  intros Hp Hj. induction k as [|k [IHp IHj]]; simpl; [now split|].
  now apply updatePlayer_cong.
Qed.

(** The player while the jump lasts, by iterating the frame's update; the
    update leaves [isJumping] alone until the landing. *)
Lemma jump_iter (s : State) (k : nat) :
  player s = withVelocityY JUMP_FORCE initialPlayer ->
  (k <= 48)%nat ->
  let s' := Nat.iter k updatePlayer s in
  GameObject.x (player s') = 50 /\
  GameObject.width (player s') = 40 /\
  GameObject.height (player s') = 40 /\
  GameObject.y (player s') == jumpY (GROUND_HEIGHT - 40) k /\
  GameObject.velocityY (player s') == jumpVelocity k /\
  isJumping s' = isJumping s.
Proof.
  intros Hp. induction k as [|k IH]; intro Hk; simpl.
  - rewrite Hp. repeat split; vm_compute; reflexivity.
  - destruct IH as (Hx & Hw & Hh & Hy & Hv & Hjk); [lia|].
    set (sk := Nat.iter k updatePlayer s) in *.
    assert (Hnew : GameObject.y (player sk) + GameObject.velocityY (player sk)
                   == jumpY (GROUND_HEIGHT - 40) (S k))
      by (rewrite jumpY_succ, Hy, Hv; reflexivity).
    assert (E : Qle_bool (GROUND_HEIGHT - GameObject.height (player sk))
                  (GameObject.y (player sk) + GameObject.velocityY (player sk))
                = false).
    { destruct (Qle_bool _ _) eqn:E; [|reflexivity].
      apply Qle_bool_iff in E. rewrite Hh, Hnew in E.
      pose proof (jumpY_airborne (GROUND_HEIGHT - 40) (S k)) as Hlt.
      exfalso. apply (Qlt_not_le _ _ (Hlt ltac:(lia)) E). }
    unfold updatePlayer. rewrite E. simpl.
    split; [exact Hx|]. split; [exact Hw|]. split; [exact Hh|].
    split; [exact Hnew|]. split; [|exact Hjk].
    now rewrite jumpVelocity_succ, Hv.
Qed.

Lemma updatePlayer_lands (s : State) :
  GameObject.x (player s) = 50 -> GameObject.width (player s) = 40 ->
  GameObject.height (player s) = 40 ->
  GROUND_HEIGHT - 40 <= GameObject.y (player s) + GameObject.velocityY (player s) ->
  player (updatePlayer s) = initialPlayer /\ isJumping (updatePlayer s) = false.
Proof.
  intros Hx Hw Hh Hy. unfold updatePlayer.
  assert (E : Qle_bool (GROUND_HEIGHT - GameObject.height (player s))
                (GameObject.y (player s) + GameObject.velocityY (player s))
              = true) by (apply Qle_bool_iff; now rewrite Hh).
  rewrite E. simpl. rewrite Hx, Hw, Hh. split; reflexivity.
Qed.

Lemma jump_lands (s : State) :
  player s = withVelocityY JUMP_FORCE initialPlayer ->
  player (Nat.iter (S 48) updatePlayer s) = initialPlayer /\
  isJumping (Nat.iter (S 48) updatePlayer s) = false.
Proof.
  intros Hp.
  destruct (jump_iter s 48 Hp) as (Hx & Hw & Hh & Hy & Hv & _); [lia|].
  rewrite Nat.iter_succ.
  apply updatePlayer_lands; try assumption.
  rewrite Hy, Hv, <- jumpY_succ, jumpY_landing. apply Qle_refl.
Qed.

(** * Sessions that are over *)

Lemma step_over (w : World) (e : Event) :
  rendered w -> gameOver (st w) = true -> e <> KeyDown "Space" -> step w e = w.
Proof.
  intros Hr Hover He. destruct e as [t rnd|code]; simpl.
  - unfold rendered, mountLoop in Hr. rewrite Hover in Hr. now rewrite Hr.
  - assert (Hc : code <> "Space"%string) by congruence.
    apply String.eqb_neq in Hc.
    unfold restartGuard, jumpGuard. rewrite Hover, Hc. simpl.
    now rewrite andb_false_r.
Qed.

(** X4.  Game over is a frozen state: once [gameOver] holds in a rendered
    world, no sequence of frames and key presses other than [Space] changes
    anything, neither the five cells nor the (absent) loop closure. *)
Theorem game_over_is_frozen (w : World) (es : list Event) :
  rendered w -> gameOver (st w) = true ->
  Forall (fun e => e <> KeyDown "Space") es ->
  run w es = w.
Proof.
  intros Hr Hover Hes. induction Hes as [|e es He _ IH]; [reflexivity|].
  simpl. now rewrite (step_over w e Hr Hover He).
Qed.

Lemma game_over_is_frozen_witness :
  let rnd := mkDraws (1 # 2) (1 # 4) (1 # 2) in
  let s := mkState true (GameObject.mk 50 300 40 40 (7 # 2))
                   [Obstacle.mk 60 30 60] true 1234 in
  run (render s) [AnimationFrame 16 rnd; KeyDown "ArrowUp"; AnimationFrame 32 rnd;
                  KeyDown "Enter"]
    = render s.
Proof.
  intros rnd s. apply game_over_is_frozen; [reflexivity|reflexivity|].
  repeat constructor; discriminate.
Defined.

(** * Runs on well-formed inputs *)

Lemma advance_wellPlaced (o : Obstacle.t) : wellPlaced o -> wellPlaced (advance o).
Proof.
  unfold wellPlaced, advance, CANVAS_WIDTH, OBSTACLE_SPEED. simpl.
  intros (Hw & Hh & Hx). split; [exact Hw|]. split; [exact Hh|]. lra.
Qed.

Lemma createObstacle_advance_wellPlaced (rnd : Draws) :
  validDraw (rndWidth rnd) -> validDraw (rndHeight rnd) ->
  wellPlaced (advance (createObstacle rnd)).
Proof.
  intros Hw Hh. destruct (createObstacle_range rnd Hw Hh) as (_ & Hwr & Hhr).
  split; [exact Hwr|]. split; [exact Hhr|].
  simpl. apply Qle_refl.
Qed.

Lemma step_wellPlaced (w : World) (e : Event) :
  validEvent e ->
  Forall wellPlaced (obstacles (st w)) ->
  Forall wellPlaced (obstacles (st (step w e))).
Proof.
  intros He Hall. destruct e as [t rnd|code].
  - destruct (loop w) as [l|] eqn:Hl; [|simpl; now rewrite Hl].
    rewrite (frame_obstacles w l t rnd Hl).
    destruct He as (_ & _ & Hw & Hh).
    rewrite Forall_forall in *. intros o' Ho'.
    apply updateObstacles_In in Ho'. destruct Ho' as (o & Ho & -> & _).
    destruct (spawnFires l rnd t).
    + apply in_app_or in Ho. destruct Ho as [Ho|[<-|[]]].
      * apply advance_wellPlaced, Hall, Ho.
      * now apply createObstacle_advance_wellPlaced.
    + apply advance_wellPlaced, Hall, Ho.
  - simpl. destruct (_ || _); [|exact Hall].
    simpl. destruct (handleKeyDown_cases code (st w)) as [->|(-> & _)].
    + constructor.
    + exact Hall.
Qed.

Lemma step_score_nonneg (w : World) (e : Event) :
  validEvent e -> rendered w ->
  0 <= score (st w) -> 0 <= score (st (step w e)).
Proof.
  intros He Hr Hs. destruct e as [t rnd|code].
  - destruct He as (Ht & _).
    eapply Qle_trans; [exact Hs|]. now apply frame_score_le.
  - simpl. destruct (_ || _); [|exact Hs].
    simpl. destruct (handleKeyDown_cases code (st w)) as [->|(_ & -> & _)].
    + apply Qle_refl.
    + exact Hs.
Qed.

(** What a run on well-formed inputs keeps, beside [invariant] and
    [playerInvariant]. *)
Lemma run_valid (es : list Event) (w : World) :
  Forall validEvent es ->
  invariant w -> Forall wellPlaced (obstacles (st w)) -> 0 <= score (st w) ->
  Forall wellPlaced (obstacles (st (run w es))) /\ 0 <= score (st (run w es)).
Proof.
  intro Hes. revert w. induction Hes as [|e es He _ IH]; intros w Hinv Hall Hs.
  - now split.
  - simpl. apply IH.
    + now apply step_invariant.
    + now apply step_wellPlaced.
    + apply step_score_nonneg; [exact He| |exact Hs]. now destruct Hinv.
Qed.

Lemma run_playerInvariant (es : list Event) (w : World) :
  playerInvariant (player (st w)) (isJumping (st w)) ->
  playerInvariant (player (st (run w es))) (isJumping (st (run w es))).
Proof.
  revert w. induction es as [|e es IH]; intros w Hp; [exact Hp|].
  simpl. apply IH, step_playerInvariant, Hp.
Qed.

Lemma spaced_at_most_three (l : list Obstacle.t) :
  StronglySorted spaced l ->
  Forall (fun o => -50 < Obstacle.x o /\ Obstacle.x o <= 795) l ->
  (List.length l <= 3)%nat.
Proof.
  intros Hs Hall.
  destruct l as [|a [|b [|c [|d l]]]]; simpl; try lia.
  exfalso.
  inversion Hs as [|? ? Hs1 Ha]; subst.
  inversion Hs1 as [|? ? Hs2 Hb]; subst.
  inversion Hs2 as [|? ? _ Hc]; subst.
  inversion Ha as [|? ? Hab _]; subst.
  inversion Hb as [|? ? Hbc _]; subst.
  inversion Hc as [|? ? Hcd _]; subst.
  inversion Hall as [|? ? [Ha0 _] Hall1]; subst.
  inversion Hall1 as [|? ? _ Hall2]; subst.
  inversion Hall2 as [|? ? _ Hall3]; subst.
  inversion Hall3 as [|? ? [_ Hd1] _]; subst.
  unfold spaced, MIN_DISTANCE_BETWEEN_OBSTACLES in *. lra.
Qed.

(** X6.  On well-formed inputs the list never holds more than three
    obstacles: they are more than 400 apart and all stand in (-50, 795]. *)
Theorem at_most_three_obstacles (es : list Event) :
  Forall validEvent es ->
  (List.length (obstacles (st (run initialWorld es))) <= 3)%nat.
Proof.
  intro Hes.
  destruct (run_valid es initialWorld Hes initial_invariant) as [Hall _];
    [constructor|apply Qle_refl|].
  destruct (run_invariant es initialWorld initial_invariant) as (_ & Hs & Hvis & _).
  apply spaced_at_most_three; [exact Hs|].
  rewrite Forall_forall in *. intros o Ho.
  destruct (Hall o Ho) as ((_ & Hw) & _ & Hx). specialize (Hvis o Ho).
  unfold visible in Hvis. unfold CANVAS_WIDTH, OBSTACLE_SPEED in Hx.
  split; lra.
Qed.

(** X7.  On well-formed inputs the score is a non-negative integer in every
    world of the run, across frames, jumps and restarts. *)
Theorem score_is_a_natural_number (es : list Event) :
  Forall validEvent es ->
  isInteger (score (st (run initialWorld es))) /\
  0 <= score (st (run initialWorld es)).
Proof.
  intro Hes.
  destruct (run_valid es initialWorld Hes initial_invariant) as [_ Hs];
    [constructor|apply Qle_refl|].
  destruct (run_invariant es initialWorld initial_invariant) as (_ & _ & _ & Hi).
  now split.
Qed.

Lemma high_player_clears (p : GameObject.t) (o : Obstacle.t) :
  GameObject.height p = 40 -> Obstacle.height o < 100 ->
  GameObject.y p <= GROUND_HEIGHT - 40 - 100 ->
  checkCollision p o = false.
Proof.
  intros Hh Ho Hy. unfold checkCollision.
  assert (E : Qlt_bool (GROUND_HEIGHT - Obstacle.height o)
                       (GameObject.y p + GameObject.height p) = false).
  { apply Qlt_bool_false_iff. rewrite Hh.
    unfold GROUND_HEIGHT in *. lra. }
  rewrite E. apply andb_false_r.
Qed.

(** X8.  On well-formed inputs a player that is at least 100 pixels above
    its resting height overlaps no obstacle of the list, and a frame that
    starts there does not end the session. *)
Theorem high_player_never_collides (es : list Event) (t : Q) (rnd : Draws) :
  Forall validEvent es ->
  let w := run initialWorld es in
  GameObject.y (player (st w)) <= GROUND_HEIGHT - 40 - 100 ->
  existsb (checkCollision (player (st w))) (obstacles (st w)) = false /\
  gameOver (st (step w (AnimationFrame t rnd))) = gameOver (st w).
Proof.
  intros Hes w Hy.
  destruct (run_valid es initialWorld Hes initial_invariant) as [Hall _];
    [constructor|apply Qle_refl|]. fold w in Hall.
  destruct (run_invariant es initialWorld initial_invariant) as (Hr & _).
  fold w in Hr.
  destruct (run_playerInvariant es initialWorld initial_playerInvariant)
    as (_ & _ & Hh & _). fold w in Hh.
  assert (E : existsb (checkCollision (player (st w))) (obstacles (st w)) = false).
  { destruct (existsb _ _) eqn:E; [|reflexivity].
    apply existsb_exists in E. destruct E as (o & Ho & Hc).
    rewrite Forall_forall in Hall. destruct (Hall o Ho) as (_ & (_ & Hoh) & _).
    rewrite (high_player_clears _ o Hh Hoh Hy) in Hc. discriminate. }
  split; [exact E|].
  destruct (gameOver (st w)) eqn:Hover.
  - simpl. unfold rendered, mountLoop in Hr. rewrite Hover in Hr.
    now rewrite Hr.
  - simpl. rewrite (rendered_running w Hr Hover). simpl.
    rewrite gameLoop_gameOver. simpl. now rewrite Hover, E.
Qed.

Lemma valid_repeat (e : Event) (n : nat) :
  validEvent e -> Forall validEvent (repeat e n).
Proof.
  intro He. apply Forall_forall. intros e' He'.
  now rewrite (repeat_spec n e e' He').
Qed.

Lemma valid_frame_1000 :
  validEvent (AnimationFrame 1000 (mkDraws (1 # 2) (1 # 4) (1 # 2))).
Proof.
  repeat split; vm_compute; congruence.
Qed.

Lemma valid_frame_16 :
  validEvent (AnimationFrame 16 (mkDraws (1 # 2) (1 # 4) (1 # 2))).
Proof.
  repeat split; vm_compute; congruence.
Qed.

(** A run that reaches three obstacles: 135 frames at timestamp 1000, a jump
    over the first obstacle, 28 more frames. *)
Lemma valid_three_obstacle_run :
  let rnd := mkDraws (1 # 2) (1 # 4) (1 # 2) in
  Forall validEvent
    (repeat (AnimationFrame 1000 rnd) 135
     ++ KeyDown "Space" :: repeat (AnimationFrame 1000 rnd) 28).
Proof.
  intro rnd. apply Forall_app. split.
  - exact (valid_repeat _ 135 valid_frame_1000).
  - constructor; [exact I|]. exact (valid_repeat _ 28 valid_frame_1000).
Qed.

Lemma at_most_three_obstacles_witness :
  let rnd := mkDraws (1 # 2) (1 # 4) (1 # 2) in
  let es := repeat (AnimationFrame 1000 rnd) 135
            ++ KeyDown "Space" :: repeat (AnimationFrame 1000 rnd) 28 in
  (List.length (obstacles (st (run initialWorld es))) <= 3)%nat.
Proof.
  intros rnd es.
  exact (at_most_three_obstacles es valid_three_obstacle_run).
Defined.

(** The bound is reached: that run leaves obstacles at -15, 390 and 795. *)
Example three_obstacles_are_possible :
  let rnd := mkDraws (1 # 2) (1 # 4) (1 # 2) in
  let es := repeat (AnimationFrame 1000 rnd) 135
            ++ KeyDown "Space" :: repeat (AnimationFrame 1000 rnd) 28 in
  map Obstacle.x (obstacles (st (run initialWorld es))) = [-15; 390; 795].
Proof. vm_compute. reflexivity. Qed.

Lemma score_is_a_natural_number_witness :
  let rnd := mkDraws (1 # 2) (1 # 4) (1 # 2) in
  let es := [AnimationFrame 1000 rnd; KeyDown "Space"; AnimationFrame 16 rnd] in
  isInteger (score (st (run initialWorld es))) /\
  0 <= score (st (run initialWorld es)).
Proof.
  intros rnd es. apply score_is_a_natural_number.
  repeat constructor; vm_compute; congruence.
Defined.

(** One frame spawns an obstacle, the player jumps, and 24 frames later it
    is at [y = 210] above the obstacle list. *)
Lemma high_player_never_collides_witness :
  let rnd := mkDraws (1 # 2) (1 # 4) (1 # 2) in
  let es := AnimationFrame 1000 rnd :: KeyDown "Space"
            :: repeat (AnimationFrame 16 rnd) 24 in
  let w := run initialWorld es in
  existsb (checkCollision (player (st w))) (obstacles (st w)) = false /\
  gameOver (st (step w (AnimationFrame 16 rnd))) = gameOver (st w).
Proof.
  intros rnd es w.
  apply (high_player_never_collides es 16 rnd).
  - constructor; [exact valid_frame_1000|].
    constructor; [exact I|]. exact (valid_repeat _ 24 valid_frame_16).
  - vm_compute. discriminate.
Defined.

(** * Several frames of obstacle updates *)

Lemma onScreen_advance (o : Obstacle.t) :
  onScreen o = false -> onScreen (advance o) = false.
Proof.
  unfold onScreen. rewrite !Qlt_bool_false_iff.
  unfold advance, OBSTACLE_SPEED. simpl. lra.
Qed.

(** Culling before advancing changes nothing once the list is culled again. *)
Lemma filter_advance_filter (l : list Obstacle.t) :
  filter onScreen (map advance (filter onScreen l))
    = filter onScreen (map advance l).
Proof.
  induction l as [|o l IH]; [reflexivity|]. simpl.
  destruct (onScreen o) eqn:E; simpl.
  - now rewrite IH.
  - now rewrite (onScreen_advance o E).
Qed.

Lemma updateObstacles_iter_filter (k : nat) (l : list Obstacle.t) :
  Nat.iter (S k) updateObstacles l
    = filter onScreen (map (Nat.iter (S k) advance) l).
Proof.
  induction k as [|k IH]; [reflexivity|].
  rewrite Nat.iter_succ, IH. unfold updateObstacles at 1.
  rewrite filter_advance_filter, map_map. reflexivity.
Qed.

Lemma advance_iter (k : nat) (o : Obstacle.t) :
  Obstacle.x (Nat.iter k advance o) == Obstacle.x o - OBSTACLE_SPEED * Qnat k /\
  Obstacle.width (Nat.iter k advance o) = Obstacle.width o /\
  Obstacle.height (Nat.iter k advance o) = Obstacle.height o.
Proof.
  induction k as [|k (Hx & Hw & Hh)].
  - simpl. repeat split. unfold OBSTACLE_SPEED. change (Qnat 0) with 0. ring.
  - rewrite Nat.iter_succ. unfold advance at 1 3 5. simpl.
    split; [|split; assumption].
    rewrite Hx, Qnat_succ. ring.
Qed.

(** X11.  One or more frames of "Update obstacles" amount to a single pass:
    [k + 1] updates give, in order, the obstacles advanced [k + 1] times
    that are still on screen; an obstacle advanced [k] times has moved left
    by [k * OBSTACLE_SPEED] and kept its size. *)
Theorem updateObstacles_iter (k : nat) (l : list Obstacle.t) :
  Nat.iter (S k) updateObstacles l
    = filter onScreen (map (Nat.iter (S k) advance) l) /\
  (forall o,
     Obstacle.x (Nat.iter k advance o) == Obstacle.x o - OBSTACLE_SPEED * Qnat k /\
     Obstacle.width (Nat.iter k advance o) = Obstacle.width o /\
     Obstacle.height (Nat.iter k advance o) = Obstacle.height o).
Proof.
  split; [apply updateObstacles_iter_filter|intro o; apply advance_iter].
Qed.





(** * What a key press can touch *)

(** X13.  A key press with a code other than [Space] and [ArrowUp] changes
    nothing in any world.  While the session runs, no key press changes the
    obstacles, the score or [gameOver], nor the player's position and size:
    a key can only set the velocity and raise [isJumping]. *)
Theorem key_press_footprint (w : World) (code : string) :
  let s' := st (step w (KeyDown code)) in
  (code <> "Space"%string -> code <> "ArrowUp"%string ->
     step w (KeyDown code) = w) /\
  (gameOver (st w) = false ->
     gameOver s' = false /\
     obstacles s' = obstacles (st w) /\
     score s' = score (st w) /\
     GameObject.x (player s') = GameObject.x (player (st w)) /\
     GameObject.y (player s') = GameObject.y (player (st w)) /\
     GameObject.width (player s') = GameObject.width (player (st w)) /\
     GameObject.height (player s') = GameObject.height (player (st w))).
Proof.
  intro s'. subst s'. split.
  - intros Hs Hu. apply String.eqb_neq in Hs. apply String.eqb_neq in Hu.
    simpl. unfold restartGuard, jumpGuard. rewrite Hs, Hu. simpl.
    now rewrite andb_false_r.
  - intro Hrun. simpl. unfold restartGuard. rewrite Hrun. simpl.
    destruct (jumpGuard code (st w)) eqn:G.
    + simpl. unfold handleKeyDown, restartGuard, jumpIntent.
      rewrite Hrun, G. simpl. now rewrite Hrun.
    + now rewrite Hrun.
Qed.

Lemma key_press_footprint_witness :
  let s := mkState false (GameObject.mk 50 300 40 40 (7 # 2))
                   [Obstacle.mk 600 45 80] true 12 in
  step (render s) (KeyDown "KeyW") = render s /\
  obstacles (st (step (render s) (KeyDown "Space"))) = obstacles s /\
  score (st (step (render s) (KeyDown "Space"))) = score s.
Proof.
  intro s.
  destruct (key_press_footprint (render s) "KeyW") as [Hother _].
  destruct (key_press_footprint (render s) "Space") as [_ Hrun].
  destruct (Hrun eq_refl) as (_ & Hobs & Hscore & _).
  split; [apply Hother; discriminate|]. split; [exact Hobs|exact Hscore].
Defined.

(** * The frame loop with rounded arithmetic *)

(** At the identity rounding the rounded model is the exact one. *)
Lemma rounded_exact (l : Loop) (rnd : Draws) (t : Q) (s : State) (w : World) (e : Event) :
  Rounded.gameLoop (fun q => q) l rnd t s = gameLoop l rnd t s /\
  Rounded.step (fun q => q) w e = step w e.
Proof. split; reflexivity. Qed.

Section RoundedBlocks.
Variable fl : Q -> Q.

Lemma rounded_spawn_fires (l : Loop) (rnd : Draws) (t : Q) (s : State) :
  Rounded.spawn fl l rnd t s =
    if Rounded.spawnFires fl l rnd t
    then (setObstacles (fun prev => prev ++ [Rounded.createObstacle fl rnd]) s, 0)
    else (s, Rounded.accumulatedTimer fl l t).
Proof.
  unfold Rounded.spawn, Rounded.spawnFires, Rounded.accumulatedTimer.
  destruct (Qlt_bool _ _); simpl; [|reflexivity].
  destruct (Rounded.canSpawnObstacle _ _); reflexivity.
Qed.

Lemma rounded_checkCollisions_frame (l : Loop) (s : State) :
  player (Rounded.checkCollisions fl l s) = player s /\
  obstacles (Rounded.checkCollisions fl l s) = obstacles s /\
  isJumping (Rounded.checkCollisions fl l s) = isJumping s /\
  score (Rounded.checkCollisions fl l s) = score s.
Proof.
  unfold Rounded.checkCollisions. generalize (capturedObstacles l) as os.
  intro os. revert s. induction os as [|o os IH]; intro s; simpl.
  - repeat split.
  - destruct (Rounded.checkCollision fl _ o); [|apply IH].
    destruct (IH (setGameOver true s)) as (Hp & Ho & Hj & Hs).
    rewrite Hp, Ho, Hj, Hs. repeat split.
Qed.

Lemma rounded_checkCollisions_gameOver (l : Loop) (s : State) :
  gameOver (Rounded.checkCollisions fl l s) =
    gameOver s
    || existsb (Rounded.checkCollision fl (capturedPlayer l)) (capturedObstacles l).
Proof.
  unfold Rounded.checkCollisions. generalize (capturedObstacles l) as os.
  intro os. revert s. induction os as [|o os IH]; intro s; simpl.
  - now rewrite orb_false_r.
  - destruct (Rounded.checkCollision fl _ o); rewrite IH; simpl.
    + now rewrite orb_true_r.
    + reflexivity.
Qed.

Lemma rounded_updatePlayer_frame (s : State) :
  gameOver (Rounded.updatePlayer fl s) = gameOver s /\
  obstacles (Rounded.updatePlayer fl s) = obstacles s /\
  score (Rounded.updatePlayer fl s) = score s.
Proof.
  unfold Rounded.updatePlayer. destruct (Qle_bool _ _); repeat split.
Qed.

Lemma rounded_updatePlayer_cong (s s' : State) :
  player s = player s' -> isJumping s = isJumping s' ->
  player (Rounded.updatePlayer fl s) = player (Rounded.updatePlayer fl s') /\
  isJumping (Rounded.updatePlayer fl s) = isJumping (Rounded.updatePlayer fl s').
Proof.
  intros Hp Hj. unfold Rounded.updatePlayer. rewrite Hp.
  destruct (Qle_bool _ _); simpl; rewrite ?Hp, ?Hj; split; reflexivity.
Qed.

Lemma rounded_incrementScore_frame (deltaTime : Q) (s : State) :
  gameOver (Rounded.incrementScore fl deltaTime s) = gameOver s /\
  player (Rounded.incrementScore fl deltaTime s) = player s /\
  obstacles (Rounded.incrementScore fl deltaTime s) = obstacles s /\
  isJumping (Rounded.incrementScore fl deltaTime s) = isJumping s.
Proof.
  unfold Rounded.incrementScore. destruct (truthy _); repeat split.
Qed.

Lemma rounded_spawn_frame (l : Loop) (rnd : Draws) (t : Q) (s : State) :
  gameOver (fst (Rounded.spawn fl l rnd t s)) = gameOver s /\
  player (fst (Rounded.spawn fl l rnd t s)) = player s /\
  isJumping (fst (Rounded.spawn fl l rnd t s)) = isJumping s /\
  score (fst (Rounded.spawn fl l rnd t s)) = score s.
Proof.
  rewrite rounded_spawn_fires. destruct (Rounded.spawnFires _ _ _ _); repeat split.
Qed.

Lemma rounded_spawn_obstacles (l : Loop) (rnd : Draws) (t : Q) (s : State) :
  obstacles (fst (Rounded.spawn fl l rnd t s)) =
    if Rounded.spawnFires fl l rnd t
    then obstacles s ++ [Rounded.createObstacle fl rnd]
    else obstacles s.
Proof.
  rewrite rounded_spawn_fires. destruct (Rounded.spawnFires _ _ _ _); reflexivity.
Qed.

Lemma rounded_gameLoop_unfold (l : Loop) (rnd : Draws) (t : Q) (s : State) :
  Rounded.gameLoop fl l rnd t s =
    (mkLoop (capturedPlayer l) (capturedObstacles l) t
            (snd (Rounded.spawn fl l rnd t s)),
     Rounded.incrementScore fl (fl (t - lastTimestamp l))
       (Rounded.checkCollisions fl l
          (Rounded.updatePlayer fl
             (setObstacles (Rounded.updateObstacles fl)
                           (fst (Rounded.spawn fl l rnd t s)))))).
Proof.
  unfold Rounded.gameLoop. destruct (Rounded.spawn fl l rnd t s); reflexivity.
Qed.

Lemma rounded_gameLoop_obstacles (l : Loop) (rnd : Draws) (t : Q) (s : State) :
  obstacles (snd (Rounded.gameLoop fl l rnd t s)) =
    Rounded.updateObstacles fl (obstacles (fst (Rounded.spawn fl l rnd t s))).
Proof.
  rewrite rounded_gameLoop_unfold. simpl.
  destruct (rounded_incrementScore_frame (fl (t - lastTimestamp l))
    (Rounded.checkCollisions fl l (Rounded.updatePlayer fl
       (setObstacles (Rounded.updateObstacles fl) (fst (Rounded.spawn fl l rnd t s))))))
    as (_ & _ & -> & _).
  destruct (rounded_checkCollisions_frame l (Rounded.updatePlayer fl
       (setObstacles (Rounded.updateObstacles fl) (fst (Rounded.spawn fl l rnd t s)))))
    as (_ & -> & _).
  destruct (rounded_updatePlayer_frame
       (setObstacles (Rounded.updateObstacles fl) (fst (Rounded.spawn fl l rnd t s))))
    as (_ & -> & _).
  reflexivity.
Qed.

Lemma rounded_gameLoop_gameOver (l : Loop) (rnd : Draws) (t : Q) (s : State) :
  gameOver (snd (Rounded.gameLoop fl l rnd t s)) =
    gameOver s
    || existsb (Rounded.checkCollision fl (capturedPlayer l)) (capturedObstacles l).
Proof.
  rewrite rounded_gameLoop_unfold. simpl.
  destruct (rounded_incrementScore_frame (fl (t - lastTimestamp l))
    (Rounded.checkCollisions fl l (Rounded.updatePlayer fl
       (setObstacles (Rounded.updateObstacles fl) (fst (Rounded.spawn fl l rnd t s))))))
    as (-> & _).
  rewrite rounded_checkCollisions_gameOver.
  destruct (rounded_updatePlayer_frame
       (setObstacles (Rounded.updateObstacles fl) (fst (Rounded.spawn fl l rnd t s))))
    as (-> & _).
  simpl. destruct (rounded_spawn_frame l rnd t s) as (-> & _). reflexivity.
Qed.

Lemma rounded_gameLoop_player (l : Loop) (rnd : Draws) (t : Q) (s : State) :
  player (snd (Rounded.gameLoop fl l rnd t s)) = player (Rounded.updatePlayer fl s) /\
  isJumping (snd (Rounded.gameLoop fl l rnd t s))
    = isJumping (Rounded.updatePlayer fl s).
Proof.
  rewrite rounded_gameLoop_unfold. simpl.
  destruct (rounded_incrementScore_frame (fl (t - lastTimestamp l))
    (Rounded.checkCollisions fl l (Rounded.updatePlayer fl
       (setObstacles (Rounded.updateObstacles fl) (fst (Rounded.spawn fl l rnd t s))))))
    as (_ & -> & _ & ->).
  destruct (rounded_checkCollisions_frame l (Rounded.updatePlayer fl
       (setObstacles (Rounded.updateObstacles fl) (fst (Rounded.spawn fl l rnd t s)))))
    as (-> & _ & -> & _).
  destruct (rounded_spawn_frame l rnd t s) as (_ & Hp & Hj & _).
  apply rounded_updatePlayer_cong; simpl; assumption.
Qed.


Lemma rounded_frame_obstacles (w : World) (l : Loop) (t : Q) (rnd : Draws) :
  loop w = Some l ->
  obstacles (st (Rounded.step fl w (AnimationFrame t rnd))) =
    Rounded.updateObstacles fl
      (if Rounded.spawnFires fl l rnd t
       then obstacles (st w) ++ [Rounded.createObstacle fl rnd]
       else obstacles (st w)).
Proof.
  intro Hl. simpl. rewrite Hl. simpl.
  now rewrite rounded_gameLoop_obstacles, rounded_spawn_obstacles.
Qed.

Lemma rounded_checkCollision_iff (p : GameObject.t) (o : Obstacle.t) :
  Rounded.checkCollision fl p o = true <->
  GameObject.x p < fl (Obstacle.x o + Obstacle.width o) /\
  fl (GameObject.x p + GameObject.width p) > Obstacle.x o /\
  fl (GameObject.y p + GameObject.height p) > fl (GROUND_HEIGHT - Obstacle.height o).
Proof.
  unfold Rounded.checkCollision. rewrite !andb_true_iff, !Qlt_bool_iff. tauto.
Qed.

End RoundedBlocks.

Section RoundedFacts.
Variable fl : Q -> Q.
Hypothesis fl_monotone : forall a b : Q, a <= b -> fl a <= fl b.
Hypothesis fl_integer :
  forall z : Z, (Z.abs z <= 2 ^ 53)%Z -> fl (inject_Z z) == inject_Z z.

Lemma fl_compat (a b : Q) : a == b -> fl a == fl b.
Proof.
  intro E. apply Qle_antisym; apply fl_monotone; rewrite E; apply Qle_refl.
Qed.

Lemma fl_exact (q : Q) (z : Z) :
  q == inject_Z z -> (Z.abs z <= 2 ^ 53)%Z -> fl q == q.
Proof.
  intros E Hz. rewrite (fl_compat q (inject_Z z) E), E. now apply fl_integer.
Qed.

Lemma fl_positive (a : Q) : 0 < fl a -> 0 < a.
Proof.
  intro H. destruct (Qlt_le_dec 0 a) as [Ha|Ha]; [exact Ha|].
  apply fl_monotone in Ha.
  rewrite (fl_exact 0 0) in Ha; [|reflexivity|vm_compute; discriminate].
  exfalso. exact (Qlt_not_le _ _ H Ha).
Qed.



Lemma fl_le_integer (q : Q) (z : Z) :
  q <= inject_Z z -> (Z.abs z <= 2 ^ 53)%Z -> fl q <= inject_Z z.
Proof.
  intros Hq Hz. apply Qle_trans with (fl (inject_Z z)).
  - now apply fl_monotone.
  - rewrite (fl_integer z Hz). apply Qle_refl.
Qed.

Lemma fl_ge_integer (q : Q) (z : Z) :
  inject_Z z <= q -> (Z.abs z <= 2 ^ 53)%Z -> inject_Z z <= fl q.
Proof.
  intros Hq Hz. apply Qle_trans with (fl (inject_Z z)).
  - rewrite (fl_integer z Hz). apply Qle_refl.
  - now apply fl_monotone.
Qed.

Ltac fl_bound z :=
  first [ apply (fl_le_integer _ z) | apply (fl_ge_integer _ z) ];
  [ try (unfold inject_Z; lra) | vm_compute; discriminate ].

Lemma rounded_createObstacle_range (rnd : Draws) :
  validDraw (rndWidth rnd) -> validDraw (rndHeight rnd) ->
  Obstacle.x (Rounded.createObstacle fl rnd) = CANVAS_WIDTH /\
  (30 <= Obstacle.width (Rounded.createObstacle fl rnd) /\
   Obstacle.width (Rounded.createObstacle fl rnd) <= 50) /\
  (50 <= Obstacle.height (Rounded.createObstacle fl rnd) /\
   Obstacle.height (Rounded.createObstacle fl rnd) <= 100).
Proof.
  unfold validDraw, Rounded.createObstacle. simpl. intros [Hw0 Hw1] [Hh0 Hh1].
  assert (Hw : 0 <= fl (rndWidth rnd * 20) /\ fl (rndWidth rnd * 20) <= 20)
    by (split; [fl_bound 0%Z|fl_bound 20%Z]).
  assert (Hh : 0 <= fl (rndHeight rnd * 50) /\ fl (rndHeight rnd * 50) <= 50)
    by (split; [fl_bound 0%Z|fl_bound 50%Z]).
  split; [reflexivity|]. split; split.
  - fl_bound 30%Z.
  - fl_bound 50%Z.
  - fl_bound 50%Z.
  - fl_bound 100%Z.
Qed.

Lemma rounded_spawnThreshold_range (rnd : Draws) :
  validDraw (rndThreshold rnd) ->
  MIN_OBSTACLE_SPACING <= Rounded.spawnThreshold fl rnd /\
  Rounded.spawnThreshold fl rnd <= MAX_OBSTACLE_SPACING.
Proof.
  unfold validDraw, Rounded.spawnThreshold, MIN_OBSTACLE_SPACING, MAX_OBSTACLE_SPACING.
  intros [H0 H1].
  assert (E300 : fl (800 - 500) == 300).
  { rewrite (fl_exact _ 300); [reflexivity|reflexivity|vm_compute; discriminate]. }
  assert (Hr : 0 <= fl (rndThreshold rnd * fl (800 - 500)) /\
               fl (rndThreshold rnd * fl (800 - 500)) <= 300).
  { split.
    - apply (fl_ge_integer _ 0);
        [rewrite E300; unfold inject_Z; lra|vm_compute; discriminate].
    - apply (fl_le_integer _ 300);
        [rewrite E300; unfold inject_Z; lra|vm_compute; discriminate]. }
  split.
  - fl_bound 500%Z.
  - fl_bound 800%Z.
Qed.

(** C2 (collision detection).  With every sum and difference rounded as the
    code computes it, a frame of a running session evaluates

      [player.x < obstacle.x + obstacle.width &&
       player.x + player.width > obstacle.x &&
       player.y + player.height > GROUND_HEIGHT - obstacle.height]

    on the player and the obstacles as they were rendered before the frame
    (not on the positions the frame computes), and the session is over after
    the frame exactly when the test succeeds for some obstacle.  The player
    (50, 360, 40, 40) and the obstacle (60, 30, 60) pass the test, so a
    frame that starts with them ends in [gameOver]. *)
Theorem collision_detection (w : World) (t : Q) (rnd : Draws) :
  rendered w -> gameOver (st w) = false ->
  let w' := Rounded.step fl w (AnimationFrame t rnd) in
  gameOver (st w')
    = existsb (Rounded.checkCollision fl (player (st w))) (obstacles (st w)) /\
  (forall p o,
     Rounded.checkCollision fl p o = true <->
     GameObject.x p < fl (Obstacle.x o + Obstacle.width o) /\
     fl (GameObject.x p + GameObject.width p) > Obstacle.x o /\
     fl (GameObject.y p + GameObject.height p)
       > fl (GROUND_HEIGHT - Obstacle.height o)) /\
  ((exists o, In o (obstacles (st w)) /\
              GameObject.x (player (st w)) < fl (Obstacle.x o + Obstacle.width o) /\
              fl (GameObject.x (player (st w)) + GameObject.width (player (st w)))
                > Obstacle.x o /\
              fl (GameObject.y (player (st w)) + GameObject.height (player (st w)))
                > fl (GROUND_HEIGHT - Obstacle.height o)) <->
   gameOver (st w') = true) /\
  (forall v,
     Rounded.checkCollision fl (GameObject.mk 50 360 40 40 v) (Obstacle.mk 60 30 60)
       = true) /\
  (forall v, player (st w) = GameObject.mk 50 360 40 40 v ->
             In (Obstacle.mk 60 30 60) (obstacles (st w)) ->
             gameOver (st w') = true).
Proof.
  intros Hr Hrun w'.
  assert (E : gameOver (st w')
              = existsb (Rounded.checkCollision fl (player (st w))) (obstacles (st w))).
  { subst w'. simpl. rewrite (rendered_running w Hr Hrun). simpl.
    rewrite rounded_gameLoop_gameOver. simpl. now rewrite Hrun. }
  assert (Hany : (exists o, In o (obstacles (st w)) /\
              GameObject.x (player (st w)) < fl (Obstacle.x o + Obstacle.width o) /\
              fl (GameObject.x (player (st w)) + GameObject.width (player (st w)))
                > Obstacle.x o /\
              fl (GameObject.y (player (st w)) + GameObject.height (player (st w)))
                > fl (GROUND_HEIGHT - Obstacle.height o)) <->
            gameOver (st w') = true).
  { rewrite E, existsb_exists. split.
    - intros (o & Hin & Hc). exists o. split; [exact Hin|].
      now apply rounded_checkCollision_iff.
    - intros (o & Hin & Hc). exists o. split; [exact Hin|].
      now apply rounded_checkCollision_iff. }
  assert (Hp5 : forall v,
            Rounded.checkCollision fl (GameObject.mk 50 360 40 40 v)
                                   (Obstacle.mk 60 30 60) = true).
  { intro v. apply rounded_checkCollision_iff. simpl.
    rewrite (fl_exact (60 + 30) 90), (fl_exact (50 + 40) 90),
      (fl_exact (360 + 40) 400), (fl_exact (GROUND_HEIGHT - 60) 340);
      try reflexivity; try (vm_compute; discriminate).
    repeat split; reflexivity. }
  split; [exact E|]. split; [apply rounded_checkCollision_iff|].
  split; [exact Hany|]. split; [exact Hp5|].
  intros v Hp Hin. rewrite E. apply existsb_exists.
  exists (Obstacle.mk 60 30 60). split; [exact Hin|]. rewrite Hp. apply Hp5.
Qed.


(** ** The player *)

Lemma rounded_updatePlayer_aboveGround (s : State) :
  playerAboveGround (player s) ->
  playerAboveGround (player (Rounded.updatePlayer fl s)).
Proof.
  intros (Hx & Hw & Hh & Hy). unfold Rounded.updatePlayer.
  assert (E : fl (GROUND_HEIGHT - GameObject.height (player s)) == 360).
  { rewrite Hh. rewrite (fl_exact _ 360); [reflexivity|reflexivity|].
    vm_compute. discriminate. }
  destruct (Qle_bool _ _) eqn:C; simpl.
  - split; [exact Hx|]. split; [exact Hw|]. split; [exact Hh|].
    simpl. rewrite E, Hh. vm_compute. discriminate.
  - split; [exact Hx|]. split; [exact Hw|]. split; [exact Hh|]. simpl.
    assert (Hlt : fl (GameObject.y (player s) + GameObject.velocityY (player s))
                  < fl (GROUND_HEIGHT - GameObject.height (player s))).
    { apply Qnot_le_lt. intro Hle. apply Qle_bool_iff in Hle. congruence. }
    rewrite E in Hlt. rewrite Hh. unfold GROUND_HEIGHT. lra.
Qed.

Lemma handleKeyDown_aboveGround (code : string) (s : State) :
  playerAboveGround (player s) ->
  playerAboveGround (player (handleKeyDown code s)).
Proof.
  intro Hp. unfold handleKeyDown, jumpIntent.
  destruct (restartGuard code s).
  - simpl. repeat split; vm_compute; congruence.
  - destruct (jumpGuard code s); [|exact Hp]. exact Hp.
Qed.

Lemma rounded_step_aboveGround (w : World) (e : Event) :
  playerAboveGround (player (st w)) ->
  playerAboveGround (player (st (Rounded.step fl w e))).
Proof.
  intro Hp. destruct e as [t rnd|code]; simpl.
  - destruct (loop w) as [l|]; [|exact Hp]. simpl.
    destruct (rounded_gameLoop_player fl l rnd t (st w)) as [-> _].
    now apply rounded_updatePlayer_aboveGround.
  - destruct (_ || _); [|exact Hp]. simpl.
    now apply handleKeyDown_aboveGround.
Qed.

(** X1.  With rounded arithmetic, the player's updater in [gameLoop] and the
    key handler each keep the player in its column ([x = 50]), at its size
    (40 x 40) and on or above the ground line ([y + height <= GROUND_HEIGHT]),
    from any state in which that holds, whatever [isJumping] and the
    velocity are; so it holds in every world of every run. *)
Theorem player_stays_above_ground (es : list Event) :
  (forall l rnd t s,
     playerAboveGround (player s) ->
     playerAboveGround (player (snd (Rounded.gameLoop fl l rnd t s)))) /\
  (forall code s,
     playerAboveGround (player s) ->
     playerAboveGround (player (handleKeyDown code s))) /\
  playerAboveGround (player (st (Rounded.run fl initialWorld es))).
Proof.
  split; [|split].
  - intros l rnd t s Hp.
    destruct (rounded_gameLoop_player fl l rnd t s) as [-> _].
    now apply rounded_updatePlayer_aboveGround.
  - intros code s. apply handleKeyDown_aboveGround.
  - assert (H : forall w, playerAboveGround (player (st w)) ->
                playerAboveGround (player (st (Rounded.run fl w es)))).
    { induction es as [|e es' IH]; intros w Hw; [exact Hw|].
      simpl. apply IH. now apply rounded_step_aboveGround. }
    apply H. repeat split; vm_compute; congruence.
Qed.

(** ** Obstacles on well-formed inputs *)

Lemma rounded_step_inBounds (w : World) (e : Event) :
  validEvent e ->
  Forall inBounds (obstacles (st w)) ->
  Forall inBounds (obstacles (st (Rounded.step fl w e))).
Proof.
  intros He Hall. destruct e as [t rnd|code].
  - destruct (loop w) as [l|] eqn:Hl; [|simpl; now rewrite Hl].
    rewrite (rounded_frame_obstacles fl w l t rnd Hl).
    destruct He as (_ & _ & Hw & Hh).
    rewrite Forall_forall in *. intros o' Ho'.
    unfold Rounded.updateObstacles in Ho'. apply filter_In in Ho'.
    destruct Ho' as [Ho' Hon]. apply in_map_iff in Ho'.
    destruct Ho' as (o & <- & Ho).
    unfold Rounded.onScreen in Hon. apply Qlt_bool_iff in Hon.
    apply fl_positive in Hon. simpl in Hon.
    assert (Hsrc : (30 <= Obstacle.width o /\ Obstacle.width o <= 50) /\
                   (50 <= Obstacle.height o /\ Obstacle.height o <= 100) /\
                   Obstacle.x o <= CANVAS_WIDTH).
    { destruct (Rounded.spawnFires fl l rnd t).
      - apply in_app_or in Ho. destruct Ho as [Ho|[<-|[]]].
        + destruct (Hall o Ho) as (Hwo & Hho & _ & Hxo).
          split; [exact Hwo|]. split; [exact Hho|].
          unfold CANVAS_WIDTH, OBSTACLE_SPEED in *. lra.
        + destruct (rounded_createObstacle_range rnd Hw Hh) as (Hx & Hwr & Hhr).
          split; [exact Hwr|]. split; [exact Hhr|]. rewrite Hx. apply Qle_refl.
      - destruct (Hall o Ho) as (Hwo & Hho & _ & Hxo).
        split; [exact Hwo|]. split; [exact Hho|].
        unfold CANVAS_WIDTH, OBSTACLE_SPEED in *. lra. }
    destruct Hsrc as (Hwo & Hho & Hxo).
    split; [exact Hwo|]. split; [exact Hho|]. simpl. split.
    + lra.
    + apply (fl_le_integer _ 795); [|vm_compute; discriminate].
      unfold CANVAS_WIDTH, OBSTACLE_SPEED, inject_Z in *. lra.
  - simpl. destruct (_ || _); [|exact Hall].
    simpl. destruct (handleKeyDown_cases code (st w)) as [->|(-> & _)].
    + constructor.
    + exact Hall.
Qed.

(** X5.  With rounded arithmetic and on well-formed inputs (timestamps not
    negative, draws in [0, 1)) every obstacle of the list, at every moment,
    has a width in [30, 50], a height in [50, 100] and stands with
    [-50 < x <= 795]. *)
Theorem obstacles_stay_well_formed (es : list Event) :
  Forall validEvent es ->
  Forall inBounds (obstacles (st (Rounded.run fl initialWorld es))).
Proof.
  intro Hes.
  assert (H : forall w, Forall inBounds (obstacles (st w)) ->
              Forall inBounds (obstacles (st (Rounded.run fl w es)))).
  { induction Hes as [|e es' He _ IH]; intros w Hw; [exact Hw|].
    simpl. apply IH. now apply rounded_step_inBounds. }
  apply H. constructor.
Qed.

(** X10.  With rounded arithmetic and a draw in [0, 1) the spawn threshold
    lies in [500, 800]: a frame whose accumulated timer is at most
    [MIN_OBSTACLE_SPACING] never spawns, and one whose timer is above
    [MAX_OBSTACLE_SPACING] spawns exactly when [canSpawnObstacle] allows
    it. *)
Theorem spawn_threshold_bounds (l : Loop) (rnd : Draws) (t : Q) :
  validDraw (rndThreshold rnd) ->
  (MIN_OBSTACLE_SPACING <= Rounded.spawnThreshold fl rnd /\
   Rounded.spawnThreshold fl rnd <= MAX_OBSTACLE_SPACING) /\
  (Rounded.accumulatedTimer fl l t <= MIN_OBSTACLE_SPACING ->
     Rounded.spawnFires fl l rnd t = false) /\
  (MAX_OBSTACLE_SPACING < Rounded.accumulatedTimer fl l t ->
     Rounded.spawnFires fl l rnd t
       = Rounded.canSpawnObstacle fl (capturedObstacles l)).
Proof.
  intro Hv. destruct (rounded_spawnThreshold_range rnd Hv) as [Hlo Hhi].
  split; [now split|]. split.
  - intro Hle. unfold Rounded.spawnFires.
    fold (Rounded.accumulatedTimer fl l t).
    assert (E : Qlt_bool (Rounded.spawnThreshold fl rnd)
                         (Rounded.accumulatedTimer fl l t) = false)
      by (apply Qlt_bool_false_iff; lra).
    now rewrite E.
  - intro Hge. unfold Rounded.spawnFires.
    fold (Rounded.accumulatedTimer fl l t).
    assert (E : Qlt_bool (Rounded.spawnThreshold fl rnd)
                         (Rounded.accumulatedTimer fl l t) = true)
      by (apply Qlt_bool_iff; lra).
    now rewrite E.
Qed.

End RoundedFacts.

(** ** Instances at the identity rounding, and binary64 *)

Lemma exact_monotone (a b : Q) : a <= b -> (fun q : Q => q) a <= (fun q : Q => q) b.
Proof. intro H. exact H. Qed.

Lemma exact_integer (z : Z) :
  (Z.abs z <= 2 ^ 53)%Z -> (fun q : Q => q) (inject_Z z) == inject_Z z.
Proof. intros _. apply Qeq_refl. Qed.

(** The frame of the specification's example, and a frame in which the
    obstacle is still 2 pixels to the right of the player. *)
Lemma collision_detection_witness :
  let exact := fun q : Q => q in
  let rnd := mkDraws 0 0 0 in
  let hit := mkState false (GameObject.mk 50 360 40 40 0) [Obstacle.mk 60 30 60] false 0 in
  let miss := mkState false (GameObject.mk 50 360 40 40 0) [Obstacle.mk 92 30 60] false 0 in
  gameOver (st (Rounded.step exact (render hit) (AnimationFrame 16 rnd))) = true /\
  gameOver (st (Rounded.step exact (render miss) (AnimationFrame 16 rnd))) = false.
Proof.
  intros exact rnd hit miss. split.
  - destruct (collision_detection exact exact_monotone exact_integer (render hit) 16 rnd
                eq_refl eq_refl) as (_ & _ & _ & _ & Hp5).
    apply (Hp5 0); [reflexivity|left; reflexivity].
  - destruct (collision_detection exact exact_monotone exact_integer (render miss) 16 rnd
                eq_refl eq_refl) as (E & _).
    rewrite E. reflexivity.
Defined.



(** There are doubles for which the sizes stay inside: the draw 1/2 gives a
    width of 40 and a height of 75. *)
Example createObstacle_binary64_half :
  Binary64.createObstacleWidth (Binary64.ofDyadic 1 (-1)) = Binary64.ofZ 40 /\
  Binary64.createObstacleHeight (Binary64.ofDyadic 1 (-1)) = Binary64.ofZ 75 /\
  Binary64.ltb (Binary64.ofZ 40) (Binary64.ofZ 50) = true.
Proof.
  repeat split; vm_compute; reflexivity.
Qed.

Lemma player_stays_above_ground_witness :
  let exact := fun q : Q => q in
  let rnd := mkDraws (1 # 2) (1 # 4) (1 # 2) in
  let es := KeyDown "Space" :: repeat (AnimationFrame 16 rnd) 24 in
  playerAboveGround (player (st (Rounded.run exact initialWorld es))).
Proof.
  intros exact rnd es.
  exact (proj2 (proj2 (player_stays_above_ground exact exact_monotone exact_integer es))).
Defined.

Lemma obstacles_stay_well_formed_witness :
  let exact := fun q : Q => q in
  let rnd := mkDraws (1 # 2) (1 # 4) (1 # 2) in
  let es := repeat (AnimationFrame 1000 rnd) 135
            ++ KeyDown "Space" :: repeat (AnimationFrame 1000 rnd) 28 in
  Forall inBounds (obstacles (st (Rounded.run exact initialWorld es))).
Proof.
  intros exact rnd es.
  exact (obstacles_stay_well_formed exact exact_monotone exact_integer es
           valid_three_obstacle_run).
Defined.

Lemma spawn_threshold_bounds_witness :
  let exact := fun q : Q => q in
  let rnd := mkDraws (2 # 3) (1 # 4) (1 # 2) in
  let l := mkLoop initialPlayer [] 0 0 in
  Rounded.spawnFires exact l rnd 500 = false /\
  Rounded.spawnFires exact l rnd 801 = Rounded.canSpawnObstacle exact [].
Proof.
  intros exact rnd l.
  assert (Hv : validDraw (rndThreshold rnd)) by (split; vm_compute; congruence).
  destruct (spawn_threshold_bounds exact exact_monotone exact_integer l rnd 500 Hv)
    as (_ & Hlow & _).
  destruct (spawn_threshold_bounds exact exact_monotone exact_integer l rnd 801 Hv)
    as (_ & _ & Hhigh).
  split.
  - apply Hlow. vm_compute. discriminate.
  - apply Hhigh. vm_compute. reflexivity.
Defined.

(** * The arc of a jump, frame by frame *)

Lemma applyFrames_player (calls : list (Loop * Draws * Q)) (s : State) :
  player (applyFrames calls s)
    = player (Nat.iter (List.length calls) updatePlayer s) /\
  isJumping (applyFrames calls s)
    = isJumping (Nat.iter (List.length calls) updatePlayer s).
Proof.
  revert s. induction calls as [|c calls IH]; intro s; [now split|].
  change (applyFrames (c :: calls) s)
    with (applyFrames calls (snd (gameLoop (fst (fst c)) (snd (fst c)) (snd c) s))).
  destruct (IH (snd (gameLoop (fst (fst c)) (snd (fst c)) (snd c) s))) as [-> ->].
  change (List.length (c :: calls)) with (S (List.length calls)).
  rewrite Nat.iter_succ_r.
  apply iter_updatePlayer_cong;
    now destruct (gameLoop_player (fst (fst c)) (snd (fst c)) (snd c) s).
Qed.

(** X3.  The arc of a jump.  From a state whose player has just been given
    [JUMP_FORCE] while at rest on the ground, [k] calls of [gameLoop] (in
    any closures, with any timestamps and draws, and no key press in
    between) leave, for [k <= 48], the player at
    [360 + k * JUMP_FORCE + GRAVITY * k (k - 1) / 2] with velocity
    [JUMP_FORCE + k * GRAVITY] and [isJumping] as it was; from the 11th to
    the 38th call the player is at least 100 pixels above its resting
    height; the 49th call puts it back on the ground, at rest, and lowers
    [isJumping]. *)
Theorem jump_arc (s : State) (calls : list (Loop * Draws * Q)) :
  player s = withVelocityY JUMP_FORCE initialPlayer ->
  let k := List.length calls in
  let s' := applyFrames calls s in
  ((k <= 48)%nat ->
     GameObject.y (player s') == jumpY (GROUND_HEIGHT - 40) k /\
     GameObject.velocityY (player s') == jumpVelocity k /\
     isJumping s' = isJumping s) /\
  ((11 <= k <= 38)%nat ->
     GameObject.y (player s') <= GROUND_HEIGHT - 40 - 100) /\
  (k = 49%nat -> player s' = initialPlayer /\ isJumping s' = false).
Proof.
  intros Hp k s'.
  destruct (applyFrames_player calls s) as [Eplayer Ejump].
  fold k in Eplayer, Ejump. fold s' in Eplayer, Ejump.
  assert (Hair : (k <= 48)%nat ->
            GameObject.y (player s') == jumpY (GROUND_HEIGHT - 40) k /\
            GameObject.velocityY (player s') == jumpVelocity k /\
            isJumping s' = isJumping s).
  { intro Hk. rewrite Eplayer, Ejump.
    destruct (jump_iter s k Hp Hk) as (_ & _ & _ & Hy & Hv & Hjk).
    split; [exact Hy|]. split; [exact Hv|exact Hjk]. }
  split; [exact Hair|]. split.
  - intro Hk. destruct Hair as (Hy & _); [lia|]. rewrite Hy.
    apply jumpY_high, Hk.
  - intro Hk. rewrite Eplayer, Ejump, Hk. now apply jump_lands.
Qed.

(** Twenty-four frames after a jump from the initial state the player is at
    the top of the arc, at [y = 210]. *)
Lemma jump_arc_witness :
  let rnd := mkDraws (1 # 2) (1 # 4) (1 # 2) in
  let l := mkLoop initialPlayer [] 0 0 in
  let s' := applyFrames (repeat (l, rnd, 16) 24) (jump initialState) in
  GameObject.y (player s') == 210 /\
  GameObject.y (player s') <= GROUND_HEIGHT - 40 - 100.
Proof.
  intros rnd l s'.
  destruct (jump_arc (jump initialState) (repeat (l, rnd, 16) 24) eq_refl)
    as (Hair & Hhigh & _).
  split.
  - destruct Hair as (Hy & _); [simpl; lia|].
    eapply Qeq_trans; [exact Hy|]. vm_compute. reflexivity.
  - apply Hhigh. simpl. lia.
Defined.
